(** * bible-api: the text normalizer, the HTTP handlers and the pool lifecycle

    A shallow embedding of [main.go].  A Go [string] is a sequence of bytes,
    here [list byte].  The library functions the program calls
    ([regexp.ReplaceAllString], [strings.TrimSpace], [strings.Trim],
    [strings.Split], [encoding/json]) are modelled after their documented
    behaviour, each in a module named after its Go package. *)

From Stdlib Require Import String.
From Stdlib Require Import List Bool Arith Lia ZArith.
From Stdlib Require Import Strings.Byte DecimalString.
From stdpp Require Import base countable gmap.
Import ListNotations.

Local Open Scope list_scope.
Local Open Scope bool_scope.

(** ** Go strings *)

Abbreviation gostring := (list byte).

(** A Go string literal. *)
Definition str (s : string) : gostring := list_byte_of_string s.

(** The double quote, which this file never writes inside a literal. *)
Definition dquote : byte := x22.

(** ** Package [regexp]: the fragment of RE2 syntax used by the program

    The engine reads its input rune by rune.  The two patterns of the
    program are read here byte by byte, which gives the same matches: their
    literals and the bytes their classes list are ASCII, an ASCII byte is
    never part of a longer rune, and each byte of a longer rune, or a byte
    that is no valid UTF-8, is in the negated class and outside [\d] and
    [\s]. *)

Module regexp.

(** [\d] is [0-9]. *)
Definition digit (b : byte) : bool :=
  (48 <=? Byte.to_nat b) && (Byte.to_nat b <=? 57).

(** [\s] is [\t\n\f\r ]: RE2's Perl class, which leaves the vertical tab
    out. *)
Definition space (b : byte) : bool :=
  Byte.eqb b x09 || Byte.eqb b x0a || Byte.eqb b x0c || Byte.eqb b x0d
  || Byte.eqb b x20.

(** A negated class [[^...]]: any byte not listed.  Negated classes match
    the newline, and a byte that is no valid UTF-8 (read by the engine as
    U+FFFD) is not listed either. *)
Definition noneOf (l : list byte) (b : byte) : bool :=
  negb (existsb (Byte.eqb b) l).

Inductive regex : Type :=
| Lit (c : byte)                (* one literal byte *)
| Cat (r1 r2 : regex)           (* r1 r2 *)
| Alt (r1 r2 : regex)           (* r1|r2, r1 preferred *)
| Opt (r : regex)               (* r?, one preferred over zero *)
| Plus (p : byte -> bool).      (* [class]+, more preferred over fewer *)

(** The literal string [l] as a regex; [l] is not empty. *)
Fixpoint lits (c : byte) (l : list byte) : regex :=
  match l with
  | [] => Lit c
  | c' :: l' => Cat (Lit c) (lits c' l')
  end.

(** [plusEnds p s]: what is left of [s] after one or more bytes of the
    class [p], longest run first. *)
Fixpoint plusEnds (p : byte -> bool) (s : gostring) : list gostring :=
  match s with
  | b :: s' => if p b then plusEnds p s' ++ [s'] else []
  | [] => []
  end.

(** [ends r s]: for every way [r] matches a prefix of [s], what is left of
    [s], in the order a backtracking search finds the matches. *)
Fixpoint ends (r : regex) (s : gostring) : list gostring :=
  match r with
  | Lit c =>
      match s with
      | b :: s' => if Byte.eqb b c then [s'] else []
      | [] => []
      end
  | Cat r1 r2 => flat_map (ends r2) (ends r1 s)
  | Alt r1 r2 => ends r1 s ++ ends r2 s
  | Opt r1 => ends r1 s ++ [s]
  | Plus p => plusEnds p s
  end.

(** Leftmost-first matching at the head of [s]: the length of the match a
    backtracking search finds first, if there is one. *)
Definition matchLen (r : regex) (s : gostring) : option nat :=
  match ends r s with
  | rest :: _ => Some (length s - length rest)
  | [] => None
  end.

(** [replaceFrom r repl skip s]: the scan of [ReplaceAllString] with
    [skip] bytes of the current match still to pass.  At each position
    not inside a match the leftmost-first match is looked for; its bytes
    are replaced by [repl] and the scan goes on behind it.  Both patterns
    of the program match at least one byte, and the rule for empty
    matches is not modelled: a position with an empty match is copied. *)
Fixpoint replaceFrom (r : regex) (repl : gostring) (skip : nat)
    (s : gostring) : gostring :=
  match s with
  | [] => []
  | b :: s' =>
      match skip with
      | S k => replaceFrom r repl k s'
      | O =>
          match matchLen r s with
          | Some (S n) => repl ++ replaceFrom r repl n s'
          | _ => b :: replaceFrom r repl 0 s'
          end
      end
  end.

Definition ReplaceAllString (r : regex) (src repl : gostring) : gostring :=
  replaceFrom r repl 0 src.

(** The bytes of [s] that belong to a match, by the same scan. *)
Fixpoint matchedFrom (r : regex) (skip : nat) (s : gostring) : list bool :=
  match s with
  | [] => []
  | b :: s' =>
      match skip with
      | S k => true :: matchedFrom r k s'
      | O =>
          match matchLen r s with
          | Some (S n) => true :: matchedFrom r n s'
          | _ => false :: matchedFrom r 0 s'
          end
      end
  end.

Definition matched (r : regex) (s : gostring) : list bool :=
  matchedFrom r 0 s.

End regexp.

(** ** Package [strings] *)

Module strings.

(** White space as Unicode defines it ([unicode.IsSpace]), by the UTF-8
    encodings of its code points: U+0009..U+000D and U+0020 on one byte,
    U+0085 and U+00A0 on two, U+1680, U+2000..U+200A, U+2028, U+2029,
    U+202F, U+205F and U+3000 on three.  The decoder gives one of these
    code points exactly where one of these byte sequences stands, forward
    ([utf8.DecodeRune]) as well as backward ([utf8.DecodeLastRune]): each
    is well-formed UTF-8, and a code point has no second encoding that the
    decoder accepts. *)
Definition space1 (b : byte) : bool :=
  Byte.eqb b x09 || Byte.eqb b x0a || Byte.eqb b x0b || Byte.eqb b x0c
  || Byte.eqb b x0d || Byte.eqb b x20.

Definition space2 (b0 b1 : byte) : bool :=
  Byte.eqb b0 xc2 && (Byte.eqb b1 x85 || Byte.eqb b1 xa0).

Definition space3 (b0 b1 b2 : byte) : bool :=
  (Byte.eqb b0 xe1 && Byte.eqb b1 x9a && Byte.eqb b2 x80)
  || (Byte.eqb b0 xe2 && Byte.eqb b1 x80
      && (((128 <=? Byte.to_nat b2) && (Byte.to_nat b2 <=? 138))
          || Byte.eqb b2 xa8 || Byte.eqb b2 xa9 || Byte.eqb b2 xaf))
  || (Byte.eqb b0 xe2 && Byte.eqb b1 x81 && Byte.eqb b2 x9f)
  || (Byte.eqb b0 xe3 && Byte.eqb b1 x80 && Byte.eqb b2 x80).

(** A byte outside ASCII ([utf8.RuneSelf] and above). *)
Definition hi (b : byte) : bool := 128 <=? Byte.to_nat b.

(** A white-space rune at the head of [s]; [sp2] and [sp3] say which
    two and three bytes, read in the direction of the scan, encode one. *)
Section dropSpaces.
Variable sp2 : byte -> byte -> bool.
Variable sp3 : byte -> byte -> byte -> bool.

Definition startsSpace (s : gostring) : bool :=
  match s with
  | [] => false
  | b0 :: s1 =>
      space1 b0
      || match s1 with
         | [] => false
         | b1 :: s2 =>
             sp2 b0 b1
             || match s2 with
                | [] => false
                | b2 :: _ => sp3 b0 b1 b2
                end
         end
  end.

(** Drop white-space runes while the string starts with one. *)
Fixpoint dropSpaces (s : gostring) : gostring :=
  match s with
  | [] => []
  | b0 :: s1 =>
      if space1 b0 then dropSpaces s1
      else match s1 with
           | [] => s
           | b1 :: s2 =>
               if sp2 b0 b1 then dropSpaces s2
               else match s2 with
                    | [] => s
                    | b2 :: s3 =>
                        if sp3 b0 b1 b2 then dropSpaces s3 else s
                    end
           end
  end.
End dropSpaces.

(** [TrimLeftFunc(s, unicode.IsSpace)]: scan forward. *)
Definition trimLeftSpace (s : gostring) : gostring :=
  dropSpaces space2 space3 s.

(** [TrimRightFunc(s, unicode.IsSpace)]: scan backward from the end, where
    the last rune is white space when the string ends with one of the
    encodings. *)
Definition trimRightSpace (s : gostring) : gostring :=
  rev (dropSpaces (fun b0 b1 => space2 b1 b0)
         (fun b0 b1 b2 => space3 b2 b1 b0) (rev s)).

(** [TrimSpace] removes all leading and trailing white space, as defined
    by Unicode: [TrimFunc(s, unicode.IsSpace)], which the ASCII fast path
    of the library does not change. *)
Definition TrimSpace (s : gostring) : gostring :=
  trimRightSpace (trimLeftSpace s).

Fixpoint dropWhile (p : byte -> bool) (s : gostring) : gostring :=
  match s with
  | b :: s' => if p b then dropWhile p s' else s
  | [] => []
  end.

(** [Trim(s, cutset)] for a cutset of ASCII bytes: the leading and the
    trailing bytes of the cutset go. *)
Definition Trim (s cutset : gostring) : gostring :=
  let inset b := existsb (Byte.eqb b) cutset in
  rev (dropWhile inset (rev (dropWhile inset s))).

(** [Split(s, sep)] for a separator of one byte: the pieces of [s]
    between the separators, one more than there are separators. *)
Fixpoint splitByte (sep : byte) (s : gostring) : list gostring :=
  match s with
  | [] => [[]]
  | b :: s' =>
      if Byte.eqb b sep then [] :: splitByte sep s'
      else match splitByte sep s' with
           | piece :: pieces => (b :: piece) :: pieces
           | [] => [[b]]
           end
  end.

Definition Split (s sep : gostring) : list gostring :=
  match sep with
  | [c] => splitByte c s
  | _ => [s]
  end.

End strings.

(** ** Package [encoding/json] *)

Module json.

(** The values the program marshals: strings, integers, slices, and
    structs or maps as lists of fields in the order they are written (a
    struct in the order of its declaration, a map by sorted key). *)
#[warnings="-register-all"]
Inductive value : Type :=
| Str (s : gostring)
| Num (n : Z)
| Arr (l : list value)
| Obj (fields : list (gostring * value)).

Definition hex (n : nat) : byte := nth n (str "0123456789abcdef") x30.

(** The bytes that HTML escaping is about: [<], [>] and [&]. *)
Definition htmlByte (b : byte) : bool :=
  Byte.eqb b x3c || Byte.eqb b x3e || Byte.eqb b x26.

(** ASCII bytes written as they are: [safeSet], and with HTML escaping
    [htmlSafeSet], which leaves out [<], [>] and [&]. *)
Definition safe (escapeHTML : bool) (b : byte) : bool :=
  (32 <=? Byte.to_nat b) && (Byte.to_nat b <=? 127)
  && negb (Byte.eqb b x22) && negb (Byte.eqb b x5c)
  && negb (escapeHTML && htmlByte b).

(** The escape of an ASCII byte that is not written as it is. *)
Definition escape (b : byte) : gostring :=
  if Byte.eqb b x5c || Byte.eqb b x22 then [x5c; b]
  else if Byte.eqb b x08 then str "\b"
  else if Byte.eqb b x0c then str "\f"
  else if Byte.eqb b x0a then str "\n"
  else if Byte.eqb b x0d then str "\r"
  else if Byte.eqb b x09 then str "\t"
  else str "\u00" ++ [hex (Byte.to_nat b / 16); hex (Byte.to_nat b mod 16)].

Definition cont (lo hi : nat) (b : byte) : bool :=
  (lo <=? Byte.to_nat b) && (Byte.to_nat b <=? hi).

(** [utf8.DecodeRune] at a byte outside ASCII: the number of bytes of the
    rune encoded at the head of [s], or [0] where the decoder gives
    [RuneError] with width 1. *)
Definition runeWidth (s : gostring) : nat :=
  match s with
  | b0 :: b1 :: rest =>
      let n0 := Byte.to_nat b0 in
      if (194 <=? n0) && (n0 <=? 223) then
        if cont 128 191 b1 then 2 else 0
      else if (224 <=? n0) && (n0 <=? 239) then
        match rest with
        | b2 :: _ =>
            if cont (if n0 =? 224 then 160 else 128)
                    (if n0 =? 237 then 159 else 191) b1
               && cont 128 191 b2
            then 3 else 0
        | [] => 0
        end
      else if (240 <=? n0) && (n0 <=? 244) then
        match rest with
        | b2 :: b3 :: _ =>
            if cont (if n0 =? 240 then 144 else 128)
                    (if n0 =? 244 then 143 else 191) b1
               && cont 128 191 b2 && cont 128 191 b3
            then 4 else 0
        | _ => 0
        end
      else 0
  | _ => 0
  end.

(** U+2028 and U+2029, which are escaped in every mode. *)
Definition lineSep (s : gostring) : option byte :=
  match s with
  | b0 :: b1 :: b2 :: _ =>
      if Byte.eqb b0 xe2 && Byte.eqb b1 x80
         && (Byte.eqb b2 xa8 || Byte.eqb b2 xa9)
      then Some (hex (Byte.to_nat b2 mod 16)) else None
  | _ => None
  end.

(** The body of a string literal; [keep] bytes of the current rune are
    still to be copied, or [drop] bytes of it to be passed over. *)
Fixpoint appendFrom (escapeHTML : bool) (keep drop : nat) (s : gostring)
    : gostring :=
  match s with
  | [] => []
  | b :: s' =>
      match keep, drop with
      | S k, _ => b :: appendFrom escapeHTML k drop s'
      | O, S d => appendFrom escapeHTML 0 d s'
      | O, O =>
          if strings.hi b then
            match runeWidth s with
            | O => str "\ufffd" ++ appendFrom escapeHTML 0 0 s'
            | S n =>
                match lineSep s with
                | Some h => str "\u202" ++ h :: appendFrom escapeHTML 0 n s'
                | None => b :: appendFrom escapeHTML n 0 s'
                end
            end
          else if safe escapeHTML b then b :: appendFrom escapeHTML 0 0 s'
          else escape b ++ appendFrom escapeHTML 0 0 s'
      end
  end.

(** [appendString]: a JSON string literal (Go 1.22 and later, where
    backspace and form feed have their short escapes). *)
Definition appendString (escapeHTML : bool) (s : gostring) : gostring :=
  [x22] ++ appendFrom escapeHTML 0 0 s ++ [x22].

Definition decimal (n : Z) : gostring :=
  str (NilZero.string_of_int (Z.to_int n)).

Fixpoint join (sep : gostring) (l : list gostring) : gostring :=
  match l with
  | [] => []
  | [x] => x
  | x :: l' => x ++ sep ++ join sep l'
  end.

Fixpoint marshal (escapeHTML : bool) (v : value) : gostring :=
  match v with
  | Str s => appendString escapeHTML s
  | Num n => decimal n
  | Arr l => str "[" ++ join (str ",") (map (marshal escapeHTML) l) ++ str "]"
  | Obj fields =>
      str "{"
      ++ join (str ",")
           (map (fun kv => appendString escapeHTML (fst kv) ++ str ":"
                           ++ marshal escapeHTML (snd kv)) fields)
      ++ str "}"
  end.

(** What [Encoder.Encode] writes: the value and a newline.  A new
    encoder escapes HTML; [SetEscapeHTML(false)] turns that off. *)
Definition encode (escapeHTML : bool) (v : value) : gostring :=
  marshal escapeHTML v ++ [x0a].

End json.

(** ** The program state and its effects *)

#[global] Instance byte_eq_dec : EqDecision byte := Byte.byte_eq_dec.
#[global] Instance byte_countable : Countable byte :=
  inj_countable Byte.to_N Byte.of_N Byte.of_to_N.

(** A database handle [*sql.DB], by the rank of the [sql.Open] that made
    it. *)
Definition DB := nat.

(** A Go [error] that is not nil, by its message. *)
Definition error := gostring.

(** The row that the query of the handler scans. *)
Record Row : Type := {
  row_book_number : Z;
  row_chapter : Z;
  row_verse : Z;
  row_text : gostring;
  row_short_name : gostring;
  row_long_name : gostring
}.

(** What the program does to the world outside, in the order it does it. *)
Inductive event : Type :=
| LogPrintf (msg : gostring)
| OsStat (path : gostring)
| SqlOpen (dsn : gostring) (db : option DB)
| SetMaxOpenConns (db : DB) (n : Z)
| SetMaxIdleConns (db : DB) (n : Z)
| Ping (db : DB)
| Close (db : DB)
| RLock
| RUnlock
| PoolLookup (name : gostring)
| PoolRange
| QueryRow (db : DB)
| HandleFunc (pattern : gostring)
| ListenAndServe (addr : gostring)
| OsExit (code : Z).

Module http.

Definition StatusOK : Z := 200.
Definition StatusBadRequest : Z := 400.
Definition StatusNotFound : Z := 404.
Definition StatusInternalServerError : Z := 500.
Definition StatusServiceUnavailable : Z := 503.

Record Request : Type := {
  Method : gostring;
  URLPath : gostring;
  Header : gmap gostring gostring;
  RemoteAddr : gostring
}.

(** A [ResponseWriter]: the header map as it stands, the status and the
    headers that went out with it once the header is written, and the body
    written so far. *)
Record ResponseWriter : Type := {
  header : gmap gostring gostring;
  wrote : option (Z * gmap gostring gostring);
  body : gostring
}.

Definition newResponseWriter : ResponseWriter :=
  {| header := ∅; wrote := None; body := [] |}.

(** [w.Header().Set(key, value)] *)
Definition HeaderSet (key value : gostring) (w : ResponseWriter)
    : ResponseWriter :=
  {| header := <[key := value]> (header w);
     wrote := wrote w; body := body w |}.

(** [w.WriteHeader(code)]: the first call sends the status with the
    headers set so far; a later call changes nothing. *)
Definition WriteHeader (code : Z) (w : ResponseWriter) : ResponseWriter :=
  match wrote w with
  | Some _ => w
  | None =>
      {| header := header w; wrote := Some (code, header w);
         body := body w |}
  end.

(** [w.Write(p)]: writes the header with [StatusOK] first if it is not
    written yet. *)
Definition Write (p : gostring) (w : ResponseWriter) : ResponseWriter :=
  let w := WriteHeader StatusOK w in
  {| header := header w; wrote := wrote w; body := body w ++ p |}.

(** What the client receives when the handler has returned. *)
Record Response : Type := {
  status : Z;
  headers : gmap gostring gostring;
  content : gostring
}.

Definition finish (w : ResponseWriter) : Response :=
  match wrote w with
  | Some (code, h) => {| status := code; headers := h; content := body w |}
  | None => {| status := StatusOK; headers := header w; content := body w |}
  end.

End http.

(** What the program cannot know before it runs.  The order of a [range]
    over a map is given once for every map; no claim compares two ranges
    over the same map. *)
Record Env : Type := {
  (** [os.Stat(path)] fails with an error for which [os.IsNotExist] holds *)
  statNotExist : gostring -> bool;
  (** the error of [sql.Open("sqlite3", dsn)], if it gives one *)
  openError : gostring -> option error;
  (** the error of [db.Ping()], if it gives one *)
  pingError : DB -> option error;
  (** what [db.QueryRow(query).Scan(...)] gives on this request *)
  queryRow : DB -> Row + error;
  (** the order in which [range translations] yields the registry *)
  rangeTranslations : list (gostring * gostring);
  (** the order in which [range dbPool] yields a pool *)
  rangePool : gmap gostring DB -> list (gostring * DB);
  (** [os.Getenv("PORT")] *)
  envPORT : gostring;
  (** what [http.ListenAndServe] returns when it returns *)
  listenError : option error
}.

Record world : Type := {
  dbPool : gmap gostring DB;
  opened : nat;
  trace : list event
}.

(** ** A state monad for the effects *)

Definition M (A : Type) : Type := world -> A * world.

Definition ret {A} (a : A) : M A := fun s => (a, s).

Definition bind {A B} (c : M A) (k : A -> M B) : M B :=
  fun s => let (a, s') := c s in k a s'.

Declare Scope go_scope.
Delimit Scope go_scope with go.
Notation "x <- c ;; k" := (bind c (fun x => k))
  (at level 100, c at next level, right associativity) : go_scope.
Notation "c ;; k" := (bind c (fun _ => k))
  (at level 100, right associativity) : go_scope.
Local Open Scope go_scope.

Definition emit (e : event) : M unit :=
  fun s => (tt, {| dbPool := dbPool s; opened := opened s;
                   trace := trace s ++ [e] |}).

Definition getPool : M (gmap gostring DB) := fun s => (dbPool s, s).

(** [dbPool[name] = db] *)
Definition poolStore (name : gostring) (db : DB) : M unit :=
  fun s => (tt, {| dbPool := <[name := db]> (dbPool s); opened := opened s;
                   trace := trace s |}).

(** [sql.Open]: a new handle, unless it fails. *)
Definition sqlOpen (env : Env) (dsn : gostring) : M (DB + error) :=
  fun s =>
    match openError env dsn with
    | Some err =>
        (inr err, {| dbPool := dbPool s; opened := opened s;
                     trace := trace s ++ [SqlOpen dsn None] |})
    | None =>
        (inl (opened s),
         {| dbPool := dbPool s; opened := S (opened s);
            trace := trace s ++ [SqlOpen dsn (Some (opened s))] |})
    end.

(** ** The program *)

(** [var translations] *)
Definition translations : gmap gostring gostring :=
  <[str "KJV" := str "assets/KJV+.Sqlite3"]>
    (<[str "RST" := str "assets/RST+.Sqlite3"]> ∅).

(** [type VerseResponse], marshalled field by field under its tags. *)
Record VerseResponse : Type := {
  Translation : gostring;
  BookNumber : Z;
  BookTitle : gostring;
  BookTitleShort : gostring;
  Chapter : Z;
  Verse : Z;
  Text : gostring
}.

Definition VerseResponse_json (v : VerseResponse) : json.value :=
  json.Obj
    [ (str "translation", json.Str (Translation v));
      (str "book_number", json.Num (BookNumber v));
      (str "book_title", json.Str (BookTitle v));
      (str "book_title_short", json.Str (BookTitleShort v));
      (str "chapter", json.Num (Chapter v));
      (str "verse", json.Num (Verse v));
      (str "text", json.Str (Text v)) ].

(** [type ErrorResponse] *)
Record ErrorResponse : Type := { Error : gostring }.

Definition ErrorResponse_json (e : ErrorResponse) : json.value :=
  json.Obj [ (str "error", json.Str (Error e)) ].

(** The map that [healthHandler] marshals; a map is written by sorted
    key. *)
Definition health_json (availableTranslations : list gostring) : json.value :=
  json.Obj
    [ (str "status", json.Str (str "ok"));
      (str "translations", json.Arr (map json.Str availableTranslations)) ].

(** [func initDatabases() error], over the registry entries still to come.
    [None] is the nil error. *)
Fixpoint initDatabases_loop (env : Env) (todo : list (gostring * gostring))
    : M (option error) :=
  match todo with
  | [] => ret None
  | (name, path) :: todo' =>
      emit (OsStat path) ;;
      if statNotExist env path then
        emit (LogPrintf (str "Warning: Database file not found for " ++ name
                         ++ str ": " ++ path)) ;;
        initDatabases_loop env todo'
      else
        r <- sqlOpen env (str "file:" ++ path ++ str "?mode=ro&cache=shared") ;;
        match r with
        | inr err =>
            ret (Some (str "failed to open database " ++ name ++ str ": "
                       ++ err))
        | inl db =>
            emit (SetMaxOpenConns db 25) ;;
            emit (SetMaxIdleConns db 5) ;;
            emit (Ping db) ;;
            match pingError env db with
            | Some err =>
                emit (Close db) ;;
                emit (LogPrintf (str "Warning: Failed to ping database "
                                 ++ name ++ str ": " ++ err)) ;;
                initDatabases_loop env todo'
            | None =>
                poolStore name db ;;
                emit (LogPrintf (str "Successfully connected to " ++ name
                                 ++ str " database")) ;;
                initDatabases_loop env todo'
            end
        end
  end.

Definition initDatabases (env : Env) : M (option error) :=
  r <- initDatabases_loop env (rangeTranslations env) ;;
  match r with
  | Some err => ret (Some err)
  | None =>
      pool <- getPool ;;
      if decide (size pool = 0)
      then ret (Some (str "no valid databases could be loaded"))
      else ret None
  end.

(** ** The text normalizer *)

(** [<S>\d+</S>] *)
Definition markerRegex : regexp.regex :=
  regexp.Cat (regexp.lits x3c (str "S>"))
    (regexp.Cat (regexp.Plus regexp.digit) (regexp.lits x3c (str "/S>"))).

(** [</?[^ai <>]+/?>] *)
Definition tagRegex : regexp.regex :=
  regexp.Cat (regexp.Lit x3c)
    (regexp.Cat (regexp.Opt (regexp.Lit x2f))
       (regexp.Cat (regexp.Plus (regexp.noneOf (str "ai <>")))
          (regexp.Cat (regexp.Opt (regexp.Lit x2f)) (regexp.Lit x3e)))).

(** [(<S>\d+</S>|</?[^ai <>]+/?>)] *)
Definition textCleanRegex : regexp.regex := regexp.Alt markerRegex tagRegex.

(** [\s+] *)
Definition whitespaceRegex : regexp.regex := regexp.Plus regexp.space.

Definition clearText (text : gostring) : gostring :=
  let cleaned := regexp.ReplaceAllString textCleanRegex text [] in
  let cleaned := strings.TrimSpace cleaned in
  let cleaned := regexp.ReplaceAllString whitespaceRegex cleaned (str " ") in
  cleaned.

(** The first stage of [clearText] alone, and the two that follow it. *)
Definition stripTags (text : gostring) : gostring :=
  regexp.ReplaceAllString textCleanRegex text [].

Definition normalizeSpace (text : gostring) : gostring :=
  regexp.ReplaceAllString whitespaceRegex (strings.TrimSpace text) (str " ").

(** ** The handlers and [main] *)

(** [func respondWithError(w, message, statusCode)]: the encoder is a new
    one, with its default setting. *)
Definition respondWithError (w : http.ResponseWriter) (message : gostring)
    (statusCode : Z) : http.ResponseWriter :=
  let w := http.HeaderSet (str "Content-Type") (str "application/json") w in
  let w := http.WriteHeader statusCode w in
  http.Write (json.encode true (ErrorResponse_json {| Error := message |})) w.

(** [func getRandomVerseHandler(w, r)] *)
Definition getRandomVerseHandler (env : Env) (w : http.ResponseWriter)
    (r : http.Request) : M http.ResponseWriter :=
  let parts :=
    strings.Split (strings.Trim (http.URLPath r) (str "/")) (str "/") in
  if negb (length parts =? 2) then
    ret (respondWithError w (str "Invalid URL format") http.StatusBadRequest)
  else
    let translationName := nth 1 parts [] in
    match translations !! translationName with
    | None =>
        ret (respondWithError w
               (str "Translation '" ++ translationName ++ str "' not found")
               http.StatusNotFound)
    | Some _ =>
        emit RLock ;;
        pool <- getPool ;;
        emit (PoolLookup translationName) ;;
        emit RUnlock ;;
        match pool !! translationName with
        | None =>
            ret (respondWithError w
                   (str "Database for translation '" ++ translationName
                    ++ str "' is not available")
                   http.StatusServiceUnavailable)
        | Some db =>
            emit (QueryRow db) ;;
            match queryRow env db with
            | inr err =>
                emit (LogPrintf (str "Database query error for "
                                 ++ translationName ++ str ": " ++ err)) ;;
                ret (respondWithError w (str "Failed to retrieve verse")
                       http.StatusInternalServerError)
            | inl row =>
                let verse :=
                  {| Translation := translationName;
                     BookNumber := row_book_number row;
                     BookTitle := row_long_name row;
                     BookTitleShort := row_short_name row;
                     Chapter := row_chapter row;
                     Verse := row_verse row;
                     Text := clearText (row_text row) |} in
                let w := http.HeaderSet (str "Content-Type")
                           (str "application/json") w in
                ret (http.Write (json.encode false (VerseResponse_json verse))
                       w)
            end
        end
    end.

(** [func healthHandler(w, r)] *)
Definition healthHandler (env : Env) (w : http.ResponseWriter)
    (r : http.Request) : M http.ResponseWriter :=
  emit RLock ;;
  pool <- getPool ;;
  emit PoolRange ;;
  let availableTranslations := map fst (rangePool env pool) in
  emit RUnlock ;;
  let w := http.HeaderSet (str "Content-Type") (str "application/json") w in
  ret (http.Write (json.encode true (health_json availableTranslations)) w).

Definition HandlerFunc : Type :=
  http.ResponseWriter -> http.Request -> M http.ResponseWriter.

(** [r.Header.Get(key)] *)
Definition HeaderGet (r : http.Request) (key : gostring) : gostring :=
  default [] (http.Header r !! key).

(** [func loggingMiddleware(next)] *)
Definition loggingMiddleware (next : HandlerFunc) : HandlerFunc :=
  fun w r =>
    let ip := HeaderGet r (str "X-Real-IP") in
    let ip := if decide (ip = []) then HeaderGet r (str "X-Forwarded-For")
              else ip in
    let ip := if decide (ip = []) then http.RemoteAddr r else ip in
    emit (LogPrintf (str "[" ++ http.Method r ++ str "] " ++ http.URLPath r
                     ++ str " from " ++ ip)) ;;
    next w r.

(** [func corsMiddleware(next)] *)
Definition corsMiddleware (next : HandlerFunc) : HandlerFunc :=
  fun w r =>
    let w := http.HeaderSet (str "Access-Control-Allow-Origin") (str "*") w in
    let w := http.HeaderSet (str "Access-Control-Allow-Methods")
               (str "GET, OPTIONS") w in
    let w := http.HeaderSet (str "Access-Control-Allow-Headers")
               (str "Content-Type") w in
    if decide (http.Method r = str "OPTIONS")
    then ret (http.WriteHeader http.StatusOK w)
    else next w r.

(** The two routes that [main] registers. *)
Definition verseRoute (env : Env) : HandlerFunc :=
  corsMiddleware (loggingMiddleware (getRandomVerseHandler env)).

Definition healthRoute (env : Env) : HandlerFunc :=
  corsMiddleware (loggingMiddleware (healthHandler env)).

(** The response to a request served while the pool is [pool], and what
    the handler did on the way. *)
Definition serve (h : HandlerFunc) (pool : gmap gostring DB)
    (r : http.Request) : http.Response * list event :=
  let (w, s) := h http.newResponseWriter r
                  {| dbPool := pool; opened := 0; trace := [] |} in
  (http.finish w, trace s).

(** The deferred function of [main]. *)
Fixpoint closeAll (l : list (gostring * DB)) : M unit :=
  match l with
  | [] => ret tt
  | (name, db) :: l' =>
      emit (LogPrintf (str "Closing database connection for " ++ name)) ;;
      emit (Close db) ;;
      closeAll l'
  end.

(** [func main()].  [log.Fatalf] logs and calls [os.Exit(1)], which ends
    the program without running the deferred function; the deferred
    function runs when [main] returns. *)
Definition main (env : Env) : M unit :=
  emit (LogPrintf (str "Initializing databases...")) ;;
  r <- initDatabases env ;;
  match r with
  | Some err =>
      emit (LogPrintf (str "Failed to initialize databases: " ++ err)) ;;
      emit (OsExit 1)
  | None =>
      emit (HandleFunc (str "/get-random-verse/")) ;;
      emit (HandleFunc (str "/health")) ;;
      let port := envPORT env in
      let port := if decide (port = []) then str "8080" else port in
      emit (LogPrintf (str "Starting server on port " ++ port ++ str "...")) ;;
      pool <- getPool ;;
      emit PoolRange ;;
      emit (LogPrintf (str "Available translations: ["
                       ++ json.join (str " ") (map fst (rangePool env pool))
                       ++ str "]")) ;;
      emit (ListenAndServe (str ":" ++ port)) ;;
      match listenError env with
      | Some err =>
          emit (LogPrintf (str "Server failed to start: " ++ err)) ;;
          emit (OsExit 1)
      | None =>
          pool <- getPool ;;
          emit PoolRange ;;
          closeAll (rangePool env pool)
      end
  end.

(** The run of the program from its start. *)
Definition run (env : Env) : world :=
  snd (main env {| dbPool := ∅; opened := 0; trace := [] |}).

(** How often a handle is opened and closed in a trace. *)
Definition isOpen (db : DB) (e : event) : bool :=
  match e with SqlOpen _ (Some db') => db =? db' | _ => false end.

Definition isClose (db : DB) (e : event) : bool :=
  match e with Close db' => db =? db' | _ => false end.

Definition opens (db : DB) (t : list event) : nat :=
  length (List.filter (isOpen db) t).

Definition closes (db : DB) (t : list event) : nat :=
  length (List.filter (isClose db) t).

(** An access to the pool or to a database. *)
Definition isDatabaseAccess (e : event) : bool :=
  match e with
  | RLock | RUnlock | PoolLookup _ | PoolRange | QueryRow _ | Ping _
  | SqlOpen _ _ | Close _ => true
  | _ => false
  end.

(** The iteration orders are orders of the maps that are ranged over. *)
Definition rangesOk (env : Env) : Prop :=
  Permutation (rangeTranslations env) (map_to_list translations)
  /\ forall pool, Permutation (rangePool env pool) (map_to_list pool).

(** A path segment: not empty and without a slash. *)
Definition isSegment (name : gostring) : bool :=
  negb (length name =? 0) && negb (existsb (Byte.eqb x2f) name).


(** ** What the patterns denote *)

(** [lang r m]: the whole of [m] is matched by [r]. *)
Fixpoint lang (r : regexp.regex) (m : gostring) : Prop :=
  match r with
  | regexp.Lit c => m = [c]
  | regexp.Cat r1 r2 => exists m1 m2, m = m1 ++ m2 /\ lang r1 m1 /\ lang r2 m2
  | regexp.Alt r1 r2 => lang r1 m \/ lang r2 m
  | regexp.Opt r1 => m = [] \/ lang r1 m
  | regexp.Plus p => m <> [] /\ forallb p m = true
  end.

(** A verse-number marker: [<S>], one or more digits, [</S>]. *)
Definition isMarker (m : gostring) : Prop :=
  exists ds, ds <> [] /\ forallb regexp.digit ds = true
             /\ m = str "<S>" ++ ds ++ str "</S>".

(** A bare tag: [<], one or more bytes none of which is [a], [i], a space,
    [<] or [>], then [>].  The slashes of a closing or self-closing tag are
    among those bytes. *)
Definition isBareTag (m : gostring) : Prop :=
  exists u, u <> [] /\ forallb (regexp.noneOf (str "ai <>")) u = true
            /\ m = x3c :: u ++ [x3e].

(** The substring [m] of [pre ++ m ++ post] is removed by the replacement
    of the matches of [r]: each of its bytes belongs to a match. *)
Definition removedIn (r : regexp.regex) (pre m post : gostring) : Prop :=
  forall i, length pre <= i < length pre + length m ->
            nth i (regexp.matched r (pre ++ m ++ post)) false = true.

(** The substring [m] of [pre ++ m ++ post] is left alone: none of its
    bytes belongs to a match. *)
Definition keptIn (r : regexp.regex) (pre m post : gostring) : Prop :=
  forall i, length pre <= i < length pre + length m ->
            nth i (regexp.matched r (pre ++ m ++ post)) true = false.

(** The length of the longest prefix of [s] in the class [p]. *)
Fixpoint span (p : byte -> bool) (s : gostring) : nat :=
  match s with
  | b :: s' => if p b then S (span p s') else 0
  | [] => 0
  end.

(** Replacing every run of [\s] by one space, as a scan that remembers
    whether the byte before was in the class. *)
Fixpoint collapse (inrun : bool) (s : gostring) : gostring :=
  match s with
  | [] => []
  | b :: s' =>
      if regexp.space b
      then if inrun then collapse true s' else x20 :: collapse true s'
      else b :: collapse false s'
  end.

(** No two neighbours of [s] are both in the class [p]. *)
Fixpoint noRun (p : byte -> bool) (s : gostring) : bool :=
  match s with
  | [] => true
  | b :: s' =>
      negb (p b && match s' with [] => false | b' :: _ => p b' end)
      && noRun p s'
  end.

(** What is left of [s] when the bytes marked in [mask] are taken out. *)
Fixpoint dropMatched (mask : list bool) (s : gostring) : gostring :=
  match mask, s with
  | true :: mask', _ :: s' => dropMatched mask' s'
  | false :: mask', b :: s' => b :: dropMatched mask' s'
  | _, _ => []
  end.

(** The generic markup tag as the specification words it: delimited by
    [<] and [>], opening, closing or self-closing, with a tag name that does
    not start with [a] or [i] and does not consist solely of whitespace. *)
Definition specTagName (m : gostring) : option gostring :=
  match m with
  | x3c :: rest =>
      match rev rest with
      | x3e :: rbody =>
          let body := rev rbody in
          let body := match body with x2f :: b => b | _ => body end in
          let body := match rev body with x2f :: b => rev b | _ => body end in
          if existsb (fun b => Byte.eqb b x3c || Byte.eqb b x3e) body
          then None else Some body
      | _ => None
      end
  | _ => None
  end.

Definition specGenericTag (m : gostring) : bool :=
  match specTagName m with
  | Some name =>
      negb (match name with
            | [] => false
            | b :: _ => Byte.eqb b x61 || Byte.eqb b x69
            end)
      && negb (forallb strings.space1 name)
  | None => false
  end.

(** The example of the specification. *)
Definition exampleInput : gostring :=
  str "<S>1</S>In the <a href=" ++ [dquote] ++ str "x" ++ [dquote]
  ++ str ">beginning</a>  God created".

Definition exampleOutput : gostring :=
  str "In the <a href=" ++ [dquote] ++ str "x" ++ [dquote]
  ++ str ">beginning</a> God created".

(** A pattern is unambiguous when a string has at most one prefix that it
    matches. *)
Definition unambiguous (r : regexp.regex) : Prop :=
  forall m1 m2 rest1 rest2,
    lang r m1 -> lang r m2 -> m1 ++ rest1 = m2 ++ rest2 -> m1 = m2.


(** The first byte of [s] is in the class [p]. *)
Definition headIn (p : byte -> bool) (s : gostring) : bool :=
  match s with [] => false | b :: _ => p b end.


(** Every byte of the class that is left is the ASCII space. *)
Definition spaceIsBlank (b : byte) : bool :=
  negb (regexp.space b) || Byte.eqb b x20.


(** The last byte of [s] is in [\s]; [i] stands for the byte before [s]. *)
Definition lastIn (i : bool) (s : gostring) : bool :=
  fold_left (fun _ c => regexp.space c) s i.


(** A string with no white space at either end. *)
Definition trimmed (t : gostring) : Prop :=
  strings.startsSpace strings.space2 strings.space3 t = false
  /\ strings.startsSpace (fun b0 b1 => strings.space2 b1 b0)
       (fun b0 b1 b2 => strings.space3 b2 b1 b0) (rev t) = false.


(** A handle is pooled when some name of the pool maps to it. *)
Definition pooled (db : DB) (s : world) : Prop :=
  exists name, dbPool s !! name = Some db.

(** The handles of a state are in order: every handle made so far was
    opened once, a pooled handle is not closed, and a handle that is not
    pooled is closed as often as it was opened. *)
Definition handlesOk (s : world) : Prop :=
  (forall db, opens db (trace s) = if db <? opened s then 1 else 0)
  /\ (forall db, pooled db s -> db < opened s /\ closes db (trace s) = 0)
  /\ (forall db, ~ pooled db s -> closes db (trace s) = opens db (trace s)).

(** Two runs of the program.  In the first both databases open and answer
    the ping, and the port is taken, so that [ListenAndServe] returns an
    error.  In the second the registry is ranged over with KJV first, KJV
    opens and answers, and [sql.Open] fails for RST. *)
Definition envPortInUse : Env :=
  {| statNotExist := fun _ => false;
     openError := fun _ => None;
     pingError := fun _ => None;
     queryRow := fun _ => inr (str "sql: no rows in result set");
     rangeTranslations :=
       [ (str "KJV", str "assets/KJV+.Sqlite3");
         (str "RST", str "assets/RST+.Sqlite3") ];
     rangePool := map_to_list;
     envPORT := [];
     listenError :=
       Some (str "listen tcp :8080: bind: address already in use") |}.

Definition envOpenFails : Env :=
  {| statNotExist := fun _ => false;
     openError :=
       fun dsn =>
         if decide (dsn = str "file:assets/RST+.Sqlite3?mode=ro&cache=shared")
         then Some (str "unable to open database file") else None;
     pingError := fun _ => None;
     queryRow := fun _ => inr (str "sql: no rows in result set");
     rangeTranslations :=
       [ (str "KJV", str "assets/KJV+.Sqlite3");
         (str "RST", str "assets/RST+.Sqlite3") ];
     rangePool := map_to_list;
     envPORT := [];
     listenError := None |}.

(** ** Predicates on requests, responses and traces *)

(** The headers that [corsMiddleware] sets on a new [ResponseWriter]. *)
Definition corsHeaderMap : gmap gostring gostring :=
  <[str "Access-Control-Allow-Headers" := str "Content-Type"]>
    (<[str "Access-Control-Allow-Methods" := str "GET, OPTIONS"]>
       (<[str "Access-Control-Allow-Origin" := str "*"]> ∅)).

(** The number of slashes of a path. *)
Definition slashes (p : gostring) : nat := count_occ Byte.byte_eq_dec p x2f.

(** What a request may cause: a log line, the read lock taken or released,
    a read of the pool, a query. *)
Definition isRequestEvent (e : event) : bool :=
  match e with
  | LogPrintf _ | RLock | RUnlock | PoolLookup _ | PoolRange | QueryRow _ =>
      true
  | _ => false
  end.

Definition isQuery (e : event) : bool :=
  match e with QueryRow _ => true | _ => false end.

Definition isLock (e : event) : bool :=
  match e with RLock | RUnlock => true | _ => false end.

(** The discipline of [dbMutex] along a trace, [held] saying whether the
    read lock is held where the trace starts: the lock is taken when it is
    not held and released when it is, the pool is read under the lock, a
    query runs outside of it, and the lock is not held at the end. *)
Fixpoint locksOk (held : bool) (t : list event) : bool :=
  match t with
  | [] => negb held
  | RLock :: t' => negb held && locksOk true t'
  | RUnlock :: t' => held && locksOk false t'
  | PoolLookup _ :: t' | PoolRange :: t' => held && locksOk held t'
  | QueryRow _ :: t' => negb held && locksOk held t'
  | _ :: t' => locksOk held t'
  end.

(** A control byte: one below [0x20]. *)
Definition isControl (b : byte) : bool := Byte.to_nat b <? 32.

(** The state in which the program starts. *)
Definition start : world := {| dbPool := ∅; opened := 0; trace := [] |}.


(** What [initDatabases] may do over a registry: log, look for a file of
    the registry, open one read-only with a shared cache, set the two limits
    of the pool of connections, ping and close a handle. *)
Definition isInitEvent (registry : list (gostring * gostring)) (e : event)
    : Prop :=
  match e with
  | LogPrintf _ | Ping _ | Close _ => True
  | OsStat path => exists name, In (name, path) registry
  | SqlOpen dsn _ =>
      exists name path,
        In (name, path) registry
        /\ dsn = str "file:" ++ path ++ str "?mode=ro&cache=shared"
  | SetMaxOpenConns _ n => n = 25%Z
  | SetMaxIdleConns _ n => n = 5%Z
  | _ => False
  end.

(** What [main] may do besides: register a route, range over the pool,
    listen, and exit with code 1. *)
Definition isMainEvent (registry : list (gostring * gostring)) (e : event)
    : Prop :=
  match e with
  | HandleFunc _ | PoolRange | ListenAndServe _ => True
  | OsExit code => code = 1%Z
  | _ => isInitEvent registry e
  end.

(** * Properties *)

(** ** The matcher *)

Section matcher.
Import regexp.

Lemma plusEnds_sound p s rest :
  In rest (plusEnds p s) ->
  exists m, s = m ++ rest /\ m <> [] /\ forallb p m = true.
Proof.
  revert rest; induction s as [|b s IH]; simpl; intros rest H; [easy|].
  destruct (p b) eqn:Hb; [|easy].
  apply in_app_or in H as [H|[<-|[]]].
  - destruct (IH _ H) as (m & -> & _ & Hm).
    exists (b :: m); simpl; rewrite Hb, Hm; easy.
  - exists [b]; simpl; rewrite Hb; easy.
Qed.

Lemma plusEnds_complete p m rest :
  m <> [] -> forallb p m = true -> In rest (plusEnds p (m ++ rest)).
Proof.
  induction m as [|b m IH]; [easy|]; simpl; intros _ H.
  apply andb_true_iff in H as [Hb Hm]; rewrite Hb.
  apply in_or_app; destruct m as [|b' m]; [right; left; easy|].
  left; apply IH; easy.
Qed.

Lemma ends_sound r : forall s rest,
  In rest (ends r s) -> exists m, s = m ++ rest /\ lang r m.
Proof.
  induction r as [c|r1 IH1 r2 IH2|r1 IH1 r2 IH2|r1 IH1|p];
    simpl; intros s rest H.
  - destruct s as [|b s]; [easy|].
    destruct (Byte.eqb b c) eqn:E; [|easy].
    apply byte_dec_bl in E; subst; destruct H as [<-|[]].
    exists [c]; easy.
  - apply in_flat_map in H as (mid & H1 & H2).
    destruct (IH1 _ _ H1) as (m1 & -> & L1).
    destruct (IH2 _ _ H2) as (m2 & -> & L2).
    exists (m1 ++ m2); rewrite <- app_assoc; eauto 7.
  - apply in_app_or in H as [H|H].
    + destruct (IH1 _ _ H) as (m & ? & ?); eauto.
    + destruct (IH2 _ _ H) as (m & ? & ?); eauto.
  - apply in_app_or in H as [H|[<-|[]]].
    + destruct (IH1 _ _ H) as (m & ? & ?); eauto.
    + exists []; auto.
  - destruct (plusEnds_sound _ _ _ H) as (m & ? & ? & ?); eauto.
Qed.

Lemma ends_complete r : forall m rest,
  lang r m -> In rest (ends r (m ++ rest)).
Proof.
  induction r as [c|r1 IH1 r2 IH2|r1 IH1 r2 IH2|r1 IH1|p];
    simpl; intros m rest H.
  - subst; simpl; rewrite (byte_dec_lb eq_refl); left; easy.
  - destruct H as (m1 & m2 & -> & L1 & L2).
    apply in_flat_map; exists (m2 ++ rest); split.
    + rewrite <- app_assoc; apply IH1; easy.
    + apply IH2; easy.
  - apply in_or_app; destruct H; [left; apply IH1|right; apply IH2]; easy.
  - apply in_or_app; destruct H as [->|H]; [right; left; easy|].
    left; apply IH1; easy.
  - destruct H; apply plusEnds_complete; easy.
Qed.

Lemma matchLen_sound r s n :
  matchLen r s = Some n ->
  exists m rest, s = m ++ rest /\ lang r m /\ n = length m.
Proof.
  unfold matchLen; destruct (ends r s) as [|rest l] eqn:E; [easy|].
  intros [= <-].
  destruct (ends_sound r s rest) as (m & -> & L); [rewrite E; left; easy|].
  exists m, rest; rewrite length_app; repeat split; auto; lia.
Qed.

Lemma matchLen_complete r m rest :
  lang r m -> exists n, matchLen r (m ++ rest) = Some n.
Proof.
  intros L; apply (ends_complete r m rest) in L.
  unfold matchLen; destruct (ends r (m ++ rest)); [easy|eauto].
Qed.

Lemma matchLen_unambiguous r m rest :
  unambiguous r -> lang r m -> matchLen r (m ++ rest) = Some (length m).
Proof.
  intros U L; destruct (matchLen_complete r m rest L) as (n & E).
  rewrite E; destruct (matchLen_sound _ _ _ E) as (m' & rest' & E' & L' & ->).
  rewrite (U _ _ _ _ L L' E'); easy.
Qed.

Lemma matchLen_Alt r1 r2 s :
  matchLen (Alt r1 r2) s =
  match matchLen r1 s with Some n => Some n | None => matchLen r2 s end.
Proof.
  unfold matchLen; simpl; destruct (ends r1 s); easy.
Qed.

Lemma matchLen_le r s n : matchLen r s = Some n -> n <= length s.
Proof.
  unfold matchLen; destruct (ends r s); [easy|]; intros [= <-]; lia.
Qed.

End matcher.

(** ** The scan of [ReplaceAllString] *)

Section scan.
Import regexp.
Variable r : regex.

Lemma length_matchedFrom k s : length (matchedFrom r k s) = length s.
Proof.
  revert k; induction s as [|b s IH]; intros k; simpl; [easy|].
  destruct k; [destruct (matchLen r (b :: s)) as [[|n]|]|]; simpl;
    rewrite IH; easy.
Qed.

Lemma matchedFrom_skip k s :
  matchedFrom r k s =
  repeat true (Nat.min k (length s)) ++ matchedFrom r 0 (skipn k s).
Proof.
  revert k; induction s as [|b s IH]; intros [|k]; try easy.
  cbn [matchedFrom length Nat.min repeat skipn app]; rewrite IH; easy.
Qed.

Lemma matchedFrom_match s n :
  matchLen r s = Some (S n) ->
  matchedFrom r 0 s = repeat true (S n) ++ matchedFrom r 0 (skipn (S n) s).
Proof.
  intros E; pose proof (matchLen_le _ _ _ E) as Hle.
  destruct s as [|b s]; [simpl in Hle; lia|].
  cbn [matchedFrom]; rewrite E, matchedFrom_skip.
  simpl in Hle; rewrite Nat.min_l by lia; easy.
Qed.

Lemma matchedFrom_nomatch b s :
  (forall n, matchLen r (b :: s) <> Some (S n)) ->
  matchedFrom r 0 (b :: s) = false :: matchedFrom r 0 s.
Proof.
  intros H; cbn [matchedFrom].
  destruct (matchLen r (b :: s)) as [[|n]|]; try easy.
  destruct (H n); easy.
Qed.

Lemma replaceFrom_dropMatched k s :
  replaceFrom r [] k s = dropMatched (matchedFrom r k s) s.
Proof.
  revert k; induction s as [|b s IH]; intros k; simpl; [easy|].
  destruct k; [destruct (matchLen r (b :: s)) as [[|n]|]|]; simpl;
    rewrite IH; easy.
Qed.

(** Taking matches out makes the text no longer, and strictly shorter as
    soon as it changes it. *)
Lemma replaceFrom_nil_length k s :
  length (replaceFrom r [] k s) <= length s
  /\ (length (replaceFrom r [] k s) = length s -> replaceFrom r [] k s = s).
Proof.
  revert k; induction s as [|b s IH]; intros k; simpl; [easy|].
  destruct k as [|k].
  - destruct (matchLen r (b :: s)) as [[|n]|]; simpl.
    + destruct (IH 0) as [H1 H2]; split; [lia|].
      intros H; f_equal; apply H2; lia.
    + destruct (IH n) as [H1 H2]; split; [lia|lia].
    + destruct (IH 0) as [H1 H2]; split; [lia|].
      intros H; f_equal; apply H2; lia.
  - destruct (IH k) as [H1 H2]; split; lia.
Qed.

End scan.

(** ** The two alternatives of the tag pattern *)

Section patterns.
Import regexp.

Lemma lang_lits c l m : lang (lits c l) m <-> m = c :: l.
Proof.
  revert c m; induction l as [|c' l IH]; intros c m; simpl; [easy|].
  split.
  - intros (m1 & m2 & -> & -> & H); apply IH in H; subst; easy.
  - intros ->; exists [c], (c' :: l); rewrite IH; easy.
Qed.

Lemma forallb_not_In (p : byte -> bool) c u :
  forallb p u = true -> p c = false -> ~ In c u.
Proof.
  intros H Hc Hin; rewrite forallb_forall in H.
  apply H in Hin; congruence.
Qed.

(** Cutting at the first occurrence of [c] is unique. *)
Lemma app_first_eq (c : byte) l1 : forall l2 r1 r2,
  ~ In c l1 -> ~ In c l2 ->
  l1 ++ c :: r1 = l2 ++ c :: r2 -> l1 = l2 /\ r1 = r2.
Proof.
  induction l1 as [|a l1 IH]; intros [|a' l2] r1 r2 H1 H2 E; simpl in *.
  - injection E; auto.
  - injection E as -> _; tauto.
  - injection E as -> _; tauto.
  - injection E as -> E; destruct (IH l2 r1 r2); try tauto.
    subst; easy.
Qed.

Lemma lang_markerRegex m : lang markerRegex m <-> isMarker m.
Proof.
  unfold markerRegex, isMarker; cbn [lang]; split.
  - intros (m1 & m2 & -> & H1 & ds & m3 & -> & [Hd1 Hd2] & H3).
    apply lang_lits in H1; apply lang_lits in H3; subst.
    exists ds; easy.
  - intros (ds & Hd1 & Hd2 & ->).
    exists (str "<S>"), (ds ++ str "</S>"); split; [easy|].
    split; [apply lang_lits; easy|].
    exists ds, (str "</S>"); split; [easy|].
    split; [easy|apply lang_lits; easy].
Qed.

Lemma lang_tagRegex m : lang tagRegex m <-> isBareTag m.
Proof.
  unfold tagRegex, isBareTag; cbn [lang]; split.
  - intros (m1 & m2 & -> & -> & o1 & m3 & -> & Ho1 & u & m4 & -> & [Hu1 Hu2]
            & o2 & m5 & -> & Ho2 & ->).
    exists (o1 ++ u ++ o2); split; [|split].
    + destruct o1, u; easy.
    + rewrite !forallb_app, Hu2.
      destruct Ho1 as [->| ->], Ho2 as [->| ->]; easy.
    + simpl; rewrite <- !app_assoc; easy.
  - intros (u & Hu1 & Hu2 & ->).
    exists [x3c], (u ++ [x3e]); repeat split.
    exists [], (u ++ [x3e]); split; [easy|]; split; [left; easy|].
    exists u, [x3e]; split; [easy|]; split; [easy|].
    exists [], [x3e]; split; [easy|]; split; [left; easy|easy].
Qed.

Lemma lang_textCleanRegex m :
  lang textCleanRegex m <-> isMarker m \/ isBareTag m.
Proof.
  unfold textCleanRegex; cbn [lang].
  rewrite lang_markerRegex, lang_tagRegex; easy.
Qed.

Lemma markerRegex_unambiguous : unambiguous markerRegex.
Proof.
  intros m1 m2 rest1 rest2 H1 H2 E.
  apply lang_markerRegex in H1 as (d1 & _ & D1 & ->).
  apply lang_markerRegex in H2 as (d2 & _ & D2 & ->).
  simpl in E; injection E as E; rewrite <- !app_assoc in E; simpl in E.
  apply app_first_eq in E as [-> _];
    try (eapply forallb_not_In; [eassumption|easy]); easy.
Qed.

Lemma tagRegex_unambiguous : unambiguous tagRegex.
Proof.
  intros m1 m2 rest1 rest2 H1 H2 E.
  apply lang_tagRegex in H1 as (u1 & _ & U1 & ->).
  apply lang_tagRegex in H2 as (u2 & _ & U2 & ->).
  simpl in E; injection E as E; rewrite <- !app_assoc in E; simpl in E.
  apply app_first_eq in E as [-> _];
    try (eapply forallb_not_In; [eassumption|easy]); easy.
Qed.

End patterns.

(** ** Where the scan stands when it reaches a given place *)

Section reach.
Import regexp.
Variable r : regex.

Lemma matchedFrom_app_skip pre s k :
  length pre <= k ->
  matchedFrom r k (pre ++ s) =
  repeat true (length pre) ++ matchedFrom r (k - length pre) s.
Proof.
  revert k; induction pre as [|b pre IH]; intros k Hk; simpl.
  - rewrite Nat.sub_0_r; easy.
  - destruct k as [|k]; simpl in Hk; [lia|].
    rewrite IH by lia; easy.
Qed.

(** Behind any prefix the scan goes on either afresh, or inside a match
    that began in the prefix and reaches [k] bytes further. *)
Lemma scan_app s : forall pre,
  exists X k,
    matchedFrom r 0 (pre ++ s) = X ++ matchedFrom r k s
    /\ length X = length pre
    /\ (k = 0 \/ exists pre1 pre2,
           pre = pre1 ++ pre2 /\ pre2 <> []
           /\ matchLen r (pre2 ++ s) = Some (length pre2 + k)).
Proof.
  intros pre; remember (length pre) as len eqn:Hlen.
  revert pre Hlen; induction len as [len IH] using lt_wf_ind.
  intros [|b pre] Hlen.
  - exists [], 0; auto.
  - simpl in Hlen.
    destruct (matchLen r ((b :: pre) ++ s)) as [[|n]|] eqn:E.
    1,3: destruct (IH (length pre) ltac:(lia) pre eq_refl)
           as (X & k & HX & HL & Hk);
         exists (false :: X), k; split; [|split];
         [ rewrite <- app_comm_cons, matchedFrom_nomatch, HX;
           [easy | rewrite app_comm_cons, E; easy]
         | simpl; lia
         | destruct Hk as [->|(p1 & p2 & -> & ? & ?)]; [left; easy|];
           right; exists (b :: p1), p2; easy ].
    destruct (le_lt_dec (S n) (length (b :: pre))) as [Hle|Hgt].
    + destruct (IH (length (skipn (S n) (b :: pre)))
                  ltac:(rewrite length_skipn; simpl; lia)
                  (skipn (S n) (b :: pre)) eq_refl)
        as (X & k & HX & HL & Hk).
      exists (repeat true (S n) ++ X), k; split; [|split].
      * rewrite (matchedFrom_match _ _ _ E), skipn_app.
        replace (S n - length (b :: pre)) with 0 by lia.
        rewrite skipn_O, HX, <- app_assoc; easy.
      * rewrite length_app, repeat_length, HL, length_skipn.
        cbn [length] in *; lia.
      * destruct Hk as [->|(p1 & p2 & Hp & ? & ?)]; [left; easy|].
        right; exists (firstn (S n) (b :: pre) ++ p1), p2.
        rewrite <- app_assoc, <- Hp, firstn_skipn; easy.
    + exists (repeat true (length (b :: pre))), (S n - length (b :: pre)).
      split; [|split].
      * rewrite (matchedFrom_match _ _ _ E), skipn_app.
        rewrite (skipn_all2 (b :: pre)) by lia.
        cbn [app]; pose proof (matchLen_le _ _ _ E) as Hle.
        rewrite length_app in Hle.
        rewrite (matchedFrom_skip r (S n - length (b :: pre)) s).
        rewrite Nat.min_l, app_assoc, <- repeat_app by lia.
        do 2 f_equal; lia.
      * rewrite repeat_length; cbn [length]; lia.
      * right; exists [], (b :: pre); split; [easy|]; split; [easy|].
        rewrite E; f_equal; lia.
Qed.

End reach.

(** ** Matches of the tag pattern inside a text *)

Section tags.
Import regexp.

Lemma app_only_eq (c : byte) A : forall B P Q,
  ~ In c A -> ~ In c B -> A ++ c :: B = P ++ c :: Q -> P = A /\ Q = B.
Proof.
  induction A as [|a A IH]; intros B [|p P] Q HA HB E; simpl in *.
  - injection E; auto.
  - injection E as <- ->; destruct HB; apply in_or_app; right; left; easy.
  - injection E as -> _; tauto.
  - injection E as -> E; destruct (IH B P Q); try tauto; subst; easy.
Qed.

Lemma app_eq_longer (l1 l2 r1 r2 : gostring) :
  l1 ++ r1 = l2 ++ r2 -> length l1 < length l2 ->
  exists w, w <> [] /\ l2 = l1 ++ w /\ r1 = w ++ r2.
Proof.
  intros E H; apply app_eq_app in E as (w & [(-> & ->)|(-> & ->)]).
  - rewrite length_app in H; lia.
  - exists w; destruct w; [rewrite app_nil_r in H; lia|easy].
Qed.

Lemma textClean_head m :
  isMarker m \/ isBareTag m -> exists m', m = x3c :: m'.
Proof.
  intros [(ds & _ & _ & ->)|(u & _ & _ & ->)]; eexists; reflexivity.
Qed.

Lemma matchLen_textClean_sound s n :
  matchLen textCleanRegex s = Some n ->
  exists m rest, s = m ++ rest /\ (isMarker m \/ isBareTag m)
                 /\ n = length m.
Proof.
  intros E; apply matchLen_sound in E as (m & rest & -> & L & ->).
  exists m, rest; rewrite <- lang_textCleanRegex; easy.
Qed.

(** Where a match is looked for, it begins with [<] and is not empty. *)
Lemma matchLen_textClean_head s n :
  matchLen textCleanRegex s = Some n ->
  exists s', s = x3c :: s' /\ 0 < n.
Proof.
  intros E.
  apply matchLen_textClean_sound in E as (m & rest & -> & L & ->).
  apply textClean_head in L as (m' & ->); simpl; eexists; split; [easy|lia].
Qed.

(** At the place where a marker or a bare tag begins, the scan finds a
    match that covers it. *)
Lemma found_covers m post :
  isMarker m \/ isBareTag m ->
  exists n, matchLen textCleanRegex (m ++ post) = Some n /\ length m <= n.
Proof.
  intros L; unfold textCleanRegex; rewrite matchLen_Alt.
  destruct (matchLen markerRegex (m ++ post)) as [n|] eqn:E.
  - exists n; split; [easy|].
    apply matchLen_sound in E as (m1 & rest1 & E & L1 & ->).
    destruct L as [L|(u & _ & U & ->)].
    + apply lang_markerRegex in L.
      rewrite (markerRegex_unambiguous _ _ _ _ L L1 E); easy.
    + apply lang_markerRegex in L1 as (ds & _ & _ & ->).
      simpl in E; injection E as E; rewrite <- !app_assoc in E.
      change (u ++ x3e :: post = [x53] ++ x3e :: ds ++ str "</S>" ++ rest1)
        in E.
      apply app_first_eq in E as [-> _];
        [rewrite !length_app; simpl; lia| |simpl; intuition congruence].
      eapply forallb_not_In; [eassumption|easy].
  - destruct L as [L|L].
    + apply lang_markerRegex in L.
      destruct (matchLen_complete _ _ post L); congruence.
    + apply lang_tagRegex in L.
      rewrite (matchLen_unambiguous _ _ _ tagRegex_unambiguous L); eauto.
Qed.

(** A match that begins before a [<] and passes it is a marker, and the
    [<] is the one of its [</S>]. *)
Lemma straddle pre z m rest :
  pre <> [] -> isMarker m \/ isBareTag m ->
  pre ++ x3c :: z = m ++ rest -> length pre < length m ->
  m = pre ++ str "</S>" /\ z = str "/S>" ++ rest.
Proof.
  intros Hpre L E Hlen.
  destruct (app_eq_longer _ _ _ _ E Hlen) as (w & Hw & -> & Ez).
  destruct w as [|c w']; [easy|]; injection Ez as <- ->.
  destruct pre as [|p0 pre]; [easy|].
  destruct L as [(ds & _ & D & Em)|(u & _ & U & Em)];
    simpl in Em; injection Em as -> Em.
  - change (pre ++ x3c :: w' = (x53 :: x3e :: ds) ++ x3c :: str "/S>") in Em.
    symmetry in Em; apply app_only_eq in Em as [-> ->]; [easy| |].
    + simpl; intros [H|[H|H]]; try discriminate.
      revert H; eapply forallb_not_In; [eassumption|easy].
    + simpl; intuition discriminate.
  - assert (H : In x3c (u ++ [x3e]))
      by (rewrite <- Em; apply in_or_app; right; left; easy).
    apply in_app_or in H as [H|[H|[]]]; [|discriminate].
    exfalso; revert H; eapply forallb_not_In; [eassumption|easy].
Qed.

(** No match begins where the text does not begin with [<]. *)
Lemma matched_no_lt w : forall post,
  ~ In x3c w ->
  matchedFrom textCleanRegex 0 (w ++ post) =
  repeat false (length w) ++ matchedFrom textCleanRegex 0 post.
Proof.
  induction w as [|b w IH]; intros post H; [easy|].
  rewrite <- app_comm_cons, matchedFrom_nomatch.
  - simpl; rewrite IH; [easy|]; intros ?; apply H; right; easy.
  - intros n E; apply matchLen_textClean_head in E as (s' & [= ->] & _).
    apply H; left; easy.
Qed.

End tags.

(** ** The whitespace pattern *)

Section whitespace.
Import regexp.

Lemma plusEnds_head p s :
  plusEnds p s =
  match span p s with
  | 0 => []
  | S k => skipn (S k) s :: tl (plusEnds p s)
  end.
Proof.
  induction s as [|b s IH]; simpl; [easy|].
  destruct (p b); [|easy].
  destruct (span p s); rewrite IH; easy.
Qed.

Lemma span_le p s : span p s <= length s.
Proof.
  induction s as [|b s IH]; simpl; [lia|destruct (p b); simpl; lia].
Qed.

Lemma matchLen_Plus p s :
  matchLen (Plus p) s =
  match span p s with 0 => None | S k => Some (S k) end.
Proof.
  unfold matchLen; simpl; rewrite plusEnds_head.
  pose proof (span_le p s); destruct (span p s) as [|k]; [easy|].
  rewrite length_skipn; f_equal; lia.
Qed.

(** [ReplaceAllString(whitespaceRegex, s, " ")] is the scan [collapse],
    outside a run and inside one. *)
Lemma replaceFrom_collapse s :
  replaceFrom whitespaceRegex (str " ") 0 s = collapse false s
  /\ replaceFrom whitespaceRegex (str " ") (span space s) s
     = collapse true s.
Proof.
  induction s as [|b s [IH0 IH1]]; [easy|].
  assert (E0 : replaceFrom whitespaceRegex (str " ") 0 (b :: s)
               = collapse false (b :: s)).
  { cbn [replaceFrom collapse].
    change (matchLen whitespaceRegex) with (matchLen (Plus space)).
    rewrite matchLen_Plus; cbn [span].
    destruct (space b); [rewrite IH1|rewrite IH0]; easy. }
  split; [easy|].
  cbn [span]; destruct (space b) eqn:Hb.
  - cbn [replaceFrom collapse]; rewrite Hb; easy.
  - rewrite E0; cbn [collapse]; rewrite Hb; easy.
Qed.

Lemma ReplaceAllString_whitespace s :
  ReplaceAllString whitespaceRegex s (str " ") = collapse false s.
Proof. apply replaceFrom_collapse. Qed.

Lemma collapse_length i s : length (collapse i s) <= length s.
Proof.
  revert i; induction s as [|b s IH]; intros i; simpl; [lia|].
  pose proof (IH true); pose proof (IH false).
  destruct (space b), i; simpl; lia.
Qed.

Lemma collapse_true_head s : headIn space (collapse true s) = false.
Proof.
  induction s as [|b s IH]; simpl; [easy|].
  destruct (space b) eqn:Hb; simpl; easy.
Qed.

Lemma collapse_noRun i s : noRun space (collapse i s) = true.
Proof.
  revert i; induction s as [|b s IH]; intros i; [easy|].
  cbn [collapse]; destruct (space b) eqn:Hb; [destruct i|].
  - apply IH.
  - cbn [noRun]; rewrite IH, andb_true_r.
    pose proof (collapse_true_head s) as H; unfold headIn in H.
    rewrite H; easy.
  - cbn [noRun]; rewrite IH, Hb; easy.
Qed.

Lemma collapse_blank i s : forallb spaceIsBlank (collapse i s) = true.
Proof.
  revert i; induction s as [|b s IH]; intros i; [easy|].
  cbn [collapse]; destruct (space b) eqn:Hb; [destruct i|];
    cbn [forallb]; rewrite ?IH; try easy.
  unfold spaceIsBlank; rewrite Hb; easy.
Qed.

Lemma collapse_true_false s :
  headIn space s = false -> collapse true s = collapse false s.
Proof. destruct s as [|b s]; simpl; [easy|intros ->; easy]. Qed.

Lemma collapse_fixed s :
  noRun space s = true -> forallb spaceIsBlank s = true ->
  collapse false s = s.
Proof.
  induction s as [|b s IH]; [easy|]; cbn [noRun forallb collapse].
  intros [H1 H2]%andb_true_iff [H3 H4]%andb_true_iff.
  destruct (space b) eqn:Hb.
  - unfold spaceIsBlank in H3; rewrite Hb in H3; simpl in H3.
    apply byte_dec_bl in H3; subst b.
    rewrite collapse_true_false, IH; try easy.
    destruct s; simpl in *; [easy|].
    destruct (space b); easy.
  - rewrite IH; easy.
Qed.

Lemma collapse_idempotent s :
  collapse false (collapse false s) = collapse false s.
Proof.
  apply collapse_fixed; [apply collapse_noRun|apply collapse_blank].
Qed.

Lemma collapse_snoc b s : forall i,
  collapse i (s ++ [b]) =
  collapse i s
  ++ (if space b then if lastIn i s then [] else [x20] else [b]).
Proof.
  induction s as [|c s IH]; intros i; simpl.
  - destruct (space b), i; easy.
  - destruct (space c) eqn:Hc; [destruct i|]; rewrite IH; easy.
Qed.

Lemma lastIn_rev i s :
  lastIn i (rev s) = match s with [] => i | c :: _ => space c end.
Proof.
  destruct s as [|c s]; [easy|].
  unfold lastIn; simpl; rewrite fold_left_app; easy.
Qed.

Lemma collapse_rev s :
  collapse false (rev s) = rev (collapse false s).
Proof.
  induction s as [|c s IH]; [easy|].
  cbn [rev]; rewrite collapse_snoc, IH, lastIn_rev.
  cbn [collapse]; destruct (space c) eqn:Hc; [|easy].
  destruct s as [|d s]; [easy|].
  cbn [collapse rev]; destruct (space d); [rewrite app_nil_r|]; easy.
Qed.

End whitespace.

(** ** Trimming *)

Section dropSpaces_facts.
Import strings.
Variable sp2 : byte -> byte -> bool.
Variable sp3 : byte -> byte -> byte -> bool.

Lemma gostring_ind3 (P : gostring -> Prop) :
  (forall s, (forall s', length s' < length s -> P s') -> P s) ->
  forall s, P s.
Proof.
  intros H s; remember (length s) as n eqn:E; revert s E.
  induction n as [n IH] using lt_wf_ind; intros s ->.
  apply H; intros s' Hs'; eapply IH; eauto.
Qed.

Lemma dropSpaces_eq s :
  dropSpaces sp2 sp3 s =
  match s with
  | [] => []
  | b0 :: s1 =>
      if space1 b0 then dropSpaces sp2 sp3 s1
      else match s1 with
           | [] => s
           | b1 :: s2 =>
               if sp2 b0 b1 then dropSpaces sp2 sp3 s2
               else match s2 with
                    | [] => s
                    | b2 :: s3 =>
                        if sp3 b0 b1 b2 then dropSpaces sp2 sp3 s3 else s
                    end
           end
  end.
Proof. destruct s; reflexivity. Qed.

Lemma dropSpaces_suffix s : exists pre, s = pre ++ dropSpaces sp2 sp3 s.
Proof.
  induction s as [s IH] using gostring_ind3; rewrite dropSpaces_eq.
  destruct s as [|b0 s1]; [exists []; easy|].
  destruct (space1 b0).
  { destruct (IH s1) as (pre & E); [simpl; lia|].
    exists (b0 :: pre); simpl; f_equal; easy. }
  destruct s1 as [|b1 s2]; [exists []; easy|].
  destruct (sp2 b0 b1).
  { destruct (IH s2) as (pre & E); [simpl; lia|].
    exists (b0 :: b1 :: pre); simpl; do 2 f_equal; easy. }
  destruct s2 as [|b2 s3]; [exists []; easy|].
  destruct (sp3 b0 b1 b2); [|exists []; easy].
  destruct (IH s3) as (pre & E); [simpl; lia|].
  exists (b0 :: b1 :: b2 :: pre); simpl; do 3 f_equal; easy.
Qed.

Lemma dropSpaces_length s : length (dropSpaces sp2 sp3 s) <= length s.
Proof.
  destruct (dropSpaces_suffix s) as (pre & E).
  rewrite E at 2; rewrite length_app; lia.
Qed.

Lemma dropSpaces_starts s :
  startsSpace sp2 sp3 (dropSpaces sp2 sp3 s) = false.
Proof.
  induction s as [s IH] using gostring_ind3; rewrite dropSpaces_eq.
  destruct s as [|b0 s1]; [easy|].
  destruct (space1 b0) eqn:E0; [apply IH; simpl; lia|].
  destruct s1 as [|b1 s2]; [simpl; rewrite E0; easy|].
  destruct (sp2 b0 b1) eqn:E1; [apply IH; simpl; lia|].
  destruct s2 as [|b2 s3]; [simpl; rewrite E0, E1; easy|].
  destruct (sp3 b0 b1 b2) eqn:E2; [apply IH; simpl; lia|].
  simpl; rewrite E0, E1, E2; easy.
Qed.

Lemma dropSpaces_fixed s :
  startsSpace sp2 sp3 s = false -> dropSpaces sp2 sp3 s = s.
Proof.
  destruct s as [|b0 [|b1 [|b2 s3]]]; simpl; try easy.
  - destruct (space1 b0); easy.
  - destruct (space1 b0), (sp2 b0 b1); easy.
  - destruct (space1 b0), (sp2 b0 b1), (sp3 b0 b1 b2); easy.
Qed.

Lemma startsSpace_head s :
  startsSpace sp2 sp3 s = false -> headIn space1 s = false.
Proof.
  destruct s as [|b s]; [easy|]; simpl.
  intros H; apply orb_false_iff in H as [-> _]; easy.
Qed.

Lemma startsSpace_prefix t x :
  startsSpace sp2 sp3 (t ++ x) = false -> startsSpace sp2 sp3 t = false.
Proof.
  destruct t as [|b0 [|b1 [|b2 t3]]]; simpl; try easy.
  - intros H; apply orb_false_iff in H as [-> _]; easy.
  - intros H; apply orb_false_iff in H as [-> H].
    destruct x; [easy|apply orb_false_iff in H as [-> _]; easy].
Qed.

(** From here on the bytes of the longer encodings are outside ASCII. *)
Hypothesis sp2_hi : forall a b,
  sp2 a b = true -> hi a = true /\ hi b = true.
Hypothesis sp3_hi : forall a b c,
  sp3 a b c = true -> hi a = true /\ hi b = true /\ hi c = true.

Lemma sp2_lo a b : hi a = false \/ hi b = false -> sp2 a b = false.
Proof.
  intros H; destruct (sp2 a b) eqn:E; [|easy].
  apply sp2_hi in E as [? ?]; destruct H; congruence.
Qed.

Lemma sp3_lo a b c :
  hi a = false \/ hi b = false \/ hi c = false -> sp3 a b c = false.
Proof.
  intros H; destruct (sp3 a b c) eqn:E; [|easy].
  apply sp3_hi in E as (? & ? & ?); destruct H as [|[|]]; congruence.
Qed.

Lemma space_space1 b : regexp.space b = true -> space1 b = true.
Proof.
  unfold regexp.space, space1; intros H.
  repeat (apply orb_true_iff in H as [H|H]); rewrite H;
    rewrite ?orb_true_r; easy.
Qed.

(** The scan [collapse] does not bring a white-space rune to the front. *)
Lemma collapse_starts t :
  startsSpace sp2 sp3 t = false ->
  startsSpace sp2 sp3 (collapse false t) = false.
Proof.
  destruct t as [|b0 t1]; [easy|].
  cbn [startsSpace]; intros [H0 H]%orb_false_iff.
  destruct (regexp.space b0) eqn:E0;
    [apply space_space1 in E0; congruence|].
  cbn [collapse]; rewrite E0; cbn [startsSpace]; rewrite H0; simpl.
  destruct t1 as [|b1 t2]; [easy|].
  apply orb_false_iff in H as [H1 H].
  cbn [collapse]; destruct (regexp.space b1) eqn:E1.
  - rewrite sp2_lo by auto; simpl.
    destruct (collapse true t2); [easy|apply sp3_lo; auto].
  - rewrite H1; simpl; destruct t2 as [|b2 t3]; [easy|].
    cbn [collapse]; destruct (regexp.space b2) eqn:E2;
      [apply sp3_lo; auto|easy].
Qed.

(** Trimming stops at the latest before an ASCII byte that is no white
    space. *)
Lemma dropSpaces_keeps c R :
  space1 c = false -> hi c = false ->
  forall A, exists A', dropSpaces sp2 sp3 (A ++ c :: R) = A' ++ c :: R.
Proof.
  intros c1 Hc A; induction A as [A IH] using gostring_ind3.
  rewrite dropSpaces_eq.
  destruct A as [|a0 A1]; cbn [app].
  { rewrite c1; exists []; destruct R as [|r0 R]; [easy|].
    rewrite sp2_lo by auto; destruct R as [|r1 R]; [easy|].
    rewrite sp3_lo by auto; easy. }
  destruct (space1 a0); [apply IH; simpl; lia|].
  destruct A1 as [|a1 A2]; cbn [app].
  { rewrite sp2_lo by auto; exists [a0]; destruct R as [|r0 R]; [easy|].
    rewrite sp3_lo by auto; easy. }
  destruct (sp2 a0 a1); [apply IH; simpl; lia|].
  destruct A2 as [|a2 A3]; cbn [app].
  { rewrite sp3_lo by auto; exists [a0; a1]; easy. }
  destruct (sp3 a0 a1 a2); [apply IH; simpl; lia|].
  exists (a0 :: a1 :: a2 :: A3); easy.
Qed.

End dropSpaces_facts.

Section TrimSpace_facts.
Import strings.

Lemma space2_hi a b : space2 a b = true -> hi a = true /\ hi b = true.
Proof.
  unfold space2; intros [Ha Hb]%andb_true_iff.
  apply byte_dec_bl in Ha; subst a.
  apply orb_true_iff in Hb as [Hb|Hb]; apply byte_dec_bl in Hb; subst b;
    easy.
Qed.

Lemma space3_hi a b c :
  space3 a b c = true -> hi a = true /\ hi b = true /\ hi c = true.
Proof.
  unfold space3; intros H.
  repeat (apply orb_true_iff in H as [H|H]);
    apply andb_true_iff in H as [[Ha Hb]%andb_true_iff Hc];
    apply byte_dec_bl in Ha, Hb; subst a b;
    (repeat split; try reflexivity);
    destruct c; try discriminate Hc; reflexivity.
Qed.

Lemma TrimSpace_trimmed s : trimmed (TrimSpace s).
Proof.
  unfold TrimSpace, trimRightSpace, trimLeftSpace; split.
  - set (l := dropSpaces space2 space3 s).
    destruct (dropSpaces_suffix (fun b0 b1 => space2 b1 b0)
                (fun b0 b1 b2 => space3 b2 b1 b0) (rev l)) as (pre & E).
    apply (f_equal (@rev byte)) in E; rewrite rev_involutive, rev_app_distr in E.
    apply (startsSpace_prefix _ _ _ (rev pre)); rewrite <- E.
    apply dropSpaces_starts.
  - rewrite rev_involutive; apply dropSpaces_starts.
Qed.

Lemma trimmed_fixed t : trimmed t -> TrimSpace t = t.
Proof.
  intros [H1 H2]; unfold TrimSpace, trimRightSpace, trimLeftSpace.
  rewrite (dropSpaces_fixed _ _ _ H1), (dropSpaces_fixed _ _ _ H2).
  apply rev_involutive.
Qed.

Lemma TrimSpace_length s : length (TrimSpace s) <= length s.
Proof.
  unfold TrimSpace, trimRightSpace, trimLeftSpace.
  rewrite length_rev.
  etransitivity; [apply dropSpaces_length|].
  rewrite length_rev; apply dropSpaces_length.
Qed.

Lemma collapse_trimmed t : trimmed t -> trimmed (collapse false t).
Proof.
  intros [H1 H2]; split.
  - apply collapse_starts; auto using space2_hi, space3_hi.
  - rewrite <- collapse_rev; apply collapse_starts; auto.
    + intros a b H; apply space2_hi in H; tauto.
    + intros a b c H; apply space3_hi in H; tauto.
Qed.

(** An ASCII byte that is no white space, with what is before it and
    what is behind it, stays through [TrimSpace]. *)
Lemma TrimSpace_keeps A c1 M c2 B :
  space1 c1 = false -> hi c1 = false ->
  space1 c2 = false -> hi c2 = false ->
  exists A' B',
    TrimSpace (A ++ c1 :: M ++ c2 :: B) = A' ++ c1 :: M ++ c2 :: B'.
Proof.
  intros S1 H1 S2 H2; unfold TrimSpace, trimRightSpace, trimLeftSpace.
  destruct (dropSpaces_keeps space2 space3 space2_hi space3_hi
              c1 (M ++ c2 :: B) S1 H1 A) as (A' & ->).
  replace (rev (A' ++ c1 :: M ++ c2 :: B))
    with (rev B ++ c2 :: rev (A' ++ c1 :: M)).
  2:{ change (c1 :: M ++ c2 :: B) with ((c1 :: M) ++ c2 :: B).
      rewrite (app_assoc A'), (rev_app_distr (A' ++ c1 :: M)); simpl.
      rewrite <- app_assoc; easy. }
  destruct (dropSpaces_keeps (fun b0 b1 => space2 b1 b0)
              (fun b0 b1 b2 => space3 b2 b1 b0)
              ltac:(intros a b H; apply space2_hi in H; tauto)
              ltac:(intros a b c H; apply space3_hi in H; tauto)
              c2 (rev (A' ++ c1 :: M)) S2 H2 (rev B)) as (B' & ->).
  exists A', (rev B'); rewrite rev_app_distr; simpl.
  rewrite rev_involutive, <- !app_assoc; easy.
Qed.

End TrimSpace_facts.

(** ** The normalizer, stage by stage *)

Lemma clearText_stages x : clearText x = normalizeSpace (stripTags x).
Proof. reflexivity. Qed.

Lemma normalizeSpace_collapse s :
  normalizeSpace s = collapse false (strings.TrimSpace s).
Proof. apply ReplaceAllString_whitespace. Qed.

Lemma stripTags_dropMatched s :
  stripTags s = dropMatched (regexp.matched textCleanRegex s) s.
Proof. apply replaceFrom_dropMatched. Qed.

Lemma normalizeSpace_trimmed s : trimmed (normalizeSpace s).
Proof.
  rewrite normalizeSpace_collapse.
  apply collapse_trimmed, TrimSpace_trimmed.
Qed.

Lemma normalizeSpace_idempotent s :
  normalizeSpace (normalizeSpace s) = normalizeSpace s.
Proof.
  rewrite (normalizeSpace_collapse (normalizeSpace s)).
  rewrite (trimmed_fixed _ (normalizeSpace_trimmed s)).
  rewrite normalizeSpace_collapse; apply collapse_idempotent.
Qed.

Lemma normalizeSpace_length s : length (normalizeSpace s) <= length s.
Proof.
  rewrite normalizeSpace_collapse.
  etransitivity; [apply collapse_length|apply TrimSpace_length].
Qed.

Lemma stripTags_length s :
  length (stripTags s) <= length s
  /\ (length (stripTags s) = length s -> stripTags s = s).
Proof. apply replaceFrom_nil_length. Qed.

(** ** Substrings that the three stages leave in place *)

Section survive.
Import regexp strings.

Lemma nth_repeat_app {A} (a d : A) n l j :
  j < n -> nth j (repeat a n ++ l) d = a.
Proof.
  revert j; induction n as [|n IH]; intros [|j] H; simpl; try lia; auto.
  apply IH; lia.
Qed.

Lemma dropMatched_app X Y (s t : gostring) :
  length X = length s ->
  dropMatched (X ++ Y) (s ++ t) = dropMatched X s ++ dropMatched Y t.
Proof.
  revert s; induction X as [|x X IH]; intros [|b s] H; simpl in *;
    try lia; [easy|].
  destruct x; [|rewrite <- app_comm_cons; f_equal]; apply IH; lia.
Qed.

Lemma dropMatched_false (s : gostring) :
  dropMatched (repeat false (length s)) s = s.
Proof. induction s; simpl; congruence. Qed.

Lemma existsb_In c (u : gostring) :
  existsb (Byte.eqb c) u = true <-> In c u.
Proof.
  rewrite existsb_exists; split.
  - intros (x & H & E); apply byte_dec_bl in E; subst; easy.
  - intros H; exists c; split; [easy|apply byte_dec_lb; easy].
Qed.

Lemma noneOf_not_In l c (u : gostring) :
  In c l -> forallb (noneOf l) u = true -> ~ In c u.
Proof.
  intros Hc H; eapply forallb_not_In; [eassumption|].
  unfold noneOf; apply negb_false_iff, existsb_In; easy.
Qed.

(** A tag that has an [a], an [i] or a space between its brackets is
    matched nowhere. *)
Lemma kept_tag_nomatch c u post n :
  In c (str "ai ") -> In c u -> ~ In x3e u ->
  matchLen textCleanRegex (x3c :: u ++ x3e :: post) <> Some n.
Proof.
  intros Hc Hin Hgt E.
  assert (Hcls : noneOf (str "ai <>") c = false)
    by (simpl in Hc; destruct Hc as [<-|[<-|[<-|[]]]]; reflexivity).
  apply matchLen_textClean_sound in E as (m & rest & E & L & _).
  destruct L as [(ds & _ & _ & ->)|(u' & _ & U & ->)];
    rewrite <- ?app_assoc in E; simpl in E; injection E as E.
  - change (u ++ x3e :: post = [x53] ++ x3e :: ds ++ str "</S>" ++ rest)
      in E.
    apply app_first_eq in E as [-> _]; try easy.
    + destruct Hin as [<-|[]]; discriminate Hcls.
    + simpl; intuition discriminate.
  - rewrite <- ?app_assoc in E; simpl in E.
    apply app_first_eq in E as [-> _]; try easy.
    + revert Hin; eapply forallb_not_In; eassumption.
    + eapply forallb_not_In; [eassumption|easy].
Qed.

Lemma kept_tag_scan c pre u post :
  In c (str "ai ") -> In c u -> ~ In x3c u -> ~ In x3e u ->
  exists X,
    length X = length pre
    /\ matched textCleanRegex (pre ++ (x3c :: u ++ [x3e]) ++ post)
       = X ++ repeat false (length (x3c :: u ++ [x3e]))
           ++ matched textCleanRegex post.
Proof.
  intros Hc Hin Hlt Hgt.
  destruct (scan_app textCleanRegex ((x3c :: u ++ [x3e]) ++ post) pre)
    as (X & k & HX & HL & Hk).
  exists X; split; [easy|]; unfold matched; rewrite HX; f_equal.
  assert (k = 0) as ->.
  { destruct Hk as [->|(p1 & p2 & -> & Hp2 & E)]; [easy|].
    destruct k as [|k]; [easy|exfalso].
    apply matchLen_textClean_sound in E as (m & rest & E & L & Hn).
    simpl in E; rewrite <- app_assoc in E.
    apply straddle in E as [_ E]; try easy; [|lia].
    change (u ++ x3e :: post = str "/S" ++ x3e :: rest) in E.
    apply app_first_eq in E as [-> _]; try easy.
    - simpl in Hc, Hin.
      destruct Hc as [<-|[<-|[<-|[]]]]; intuition discriminate.
    - simpl; intuition discriminate. }
  cbn [app]; rewrite <- app_assoc; cbn [app].
  rewrite matchedFrom_nomatch
    by (intros n; apply (kept_tag_nomatch c); easy).
  cbn [length repeat app]; f_equal.
  change (x3e :: post) with ([x3e] ++ post); rewrite app_assoc.
  apply matched_no_lt.
  intros H; apply in_app_or in H as [H|[H|[]]]; [easy|discriminate].
Qed.

(** None of the bytes of such a tag belongs to a match. *)
Lemma kept_tag pre u post :
  existsb (fun b => existsb (Byte.eqb b) (str "ai ")) u = true ->
  forallb (noneOf (str "<>")) u = true ->
  keptIn textCleanRegex pre (x3c :: u ++ [x3e]) post.
Proof.
  intros (c & Hin & Hc%existsb_exists)%existsb_exists Hu.
  destruct Hc as (c' & Hc' & E); apply byte_dec_bl in E; subst c'.
  assert (Hlt : ~ In x3c u)
    by (eapply noneOf_not_In; [|eassumption]; simpl; auto).
  assert (Hgt : ~ In x3e u)
    by (eapply noneOf_not_In; [|eassumption]; simpl; auto).
  destruct (kept_tag_scan c pre u post Hc' Hin Hlt Hgt) as (X & HL & HX).
  intros i Hi; rewrite HX, app_nth2 by lia.
  rewrite HL; apply nth_repeat_app; lia.
Qed.

Lemma collapse_app_keep c R : forall A i,
  space c = false ->
  collapse i (A ++ c :: R) = collapse i A ++ c :: collapse false R.
Proof.
  induction A as [|a A IH]; intros i Hc; simpl.
  - rewrite Hc; easy.
  - destruct (space a); [destruct i|]; rewrite IH; easy.
Qed.

End survive.

(** ** The normalizer: what is removed *)

(** A marker or a bare tag loses every byte, wherever it stands. *)
Lemma removed_match pre m post :
  isMarker m \/ isBareTag m -> removedIn textCleanRegex pre m post.
Proof.
  intros L i Hi; unfold regexp.matched.
  destruct (scan_app textCleanRegex (m ++ post) pre)
    as (X & k & HX & HL & Hk).
  rewrite HX, app_nth2 by lia; rewrite HL.
  destruct k as [|k].
  - destruct (found_covers m post L) as (n & E & Hn).
    destruct (matchLen_textClean_head _ _ E) as (_ & _ & Hpos).
    destruct n as [|n]; [lia|].
    rewrite (matchedFrom_match _ _ _ E); apply nth_repeat_app; lia.
  - destruct Hk as [|(p1 & p2 & -> & Hp2 & E)]; [easy|].
    apply matchLen_textClean_sound in E as (m' & rest & E & L' & Hn).
    destruct (textClean_head m L) as (m0 & ->).
    rewrite <- app_comm_cons in E.
    apply straddle in E as [Em' E]; [|easy|easy|lia].
    assert (Hm : length (x3c :: m0) <= S k).
    { destruct L as [(ds & _ & _ & Em)|(u & _ & U & Em)];
        injection Em as ->.
      - discriminate E.
      - rewrite <- app_assoc in E.
        change (u ++ x3e :: post = str "/S" ++ x3e :: rest) in E.
        apply app_first_eq in E as [-> ->].
        + subst m'; rewrite !length_app in Hn; simpl in *; lia.
        + eapply forallb_not_In; [eassumption|easy].
        + simpl; intuition discriminate. }
    rewrite matchedFrom_skip; apply nth_repeat_app.
    rewrite ?length_app in *; cbn [length] in *; lia.
Qed.

(** C1, as amended.  Every substring of the input that is a verse-number
    marker [<S>digits</S>], or a tag [<...>] with at least one byte between
    the brackets and none of [a], [i], space, [<], [>] among them, is removed
    by [clearText]: each of its bytes belongs to a match of the tag pattern,
    and the matched bytes are taken out before the whitespace stages.  A
    tag with an [a], an [i] or a space anywhere between its brackets, and no
    [<] or [>] there, loses no byte to the pattern, whatever its name
    starts with. *)
Theorem clearText_removes_markers_and_bare_tags pre m post :
  (isMarker m \/ isBareTag m -> removedIn textCleanRegex pre m post)
  /\ (forall u,
        m = x3c :: u ++ [x3e] ->
        existsb (fun b => existsb (Byte.eqb b) (str "ai ")) u = true ->
        forallb (regexp.noneOf (str "<>")) u = true ->
        keptIn textCleanRegex pre m post)
  /\ clearText (pre ++ m ++ post)
     = normalizeSpace
         (dropMatched (regexp.matched textCleanRegex (pre ++ m ++ post))
            (pre ++ m ++ post)).
Proof.
  split; [apply removed_match|split].
  - intros u -> Hai Hu; apply kept_tag; easy.
  - rewrite clearText_stages, stripTags_dropMatched; easy.
Qed.

(** C1, as stated, fails: [<table>] is a generic tag in the words of the
    specification (its name starts with [t]), and [clearText] keeps it,
    because the name contains an [a]. *)
Lemma clearText_keeps_table :
  specGenericTag (str "<table>") = true
  /\ ~ removedIn textCleanRegex [] (str "<table>") []
  /\ clearText (str "<table>") = str "<table>".
Proof.
  split; [reflexivity|]; split; [|reflexivity].
  intros H; specialize (H 0 ltac:(simpl; lia)); discriminate H.
Qed.

Lemma clearText_removes_markers_and_bare_tags_witness :
  (isBareTag (str "</b>")
   /\ removedIn textCleanRegex (str "x") (str "</b>") (str "y")
   /\ clearText (str "x" ++ str "</b>" ++ str "y") = str "xy")
  /\ (keptIn textCleanRegex (str "x") (str "<table>") (str "y")
      /\ clearText (str "x" ++ str "<table>" ++ str "y") = str "x<table>y").
Proof.
  assert (T : isBareTag (str "</b>"))
    by (exists (str "/b"); repeat split; discriminate).
  split.
  - split; [exact T|]; split; [|reflexivity].
    apply (proj1 (clearText_removes_markers_and_bare_tags
                    (str "x") (str "</b>") (str "y"))), or_intror, T.
  - split; [|reflexivity].
    apply (proj1 (proj2 (clearText_removes_markers_and_bare_tags
                           (str "x") (str "<table>") (str "y")))
             (str "table")); reflexivity.
Defined.

(** ** The normalizer: the example, lengths, whitespace, idempotence *)

(** C8.  On the example of the specification the marker is removed, the
    anchor tag is kept and the double space becomes one. *)
Theorem clearText_example : clearText exampleInput = exampleOutput.
Proof. vm_compute; reflexivity. Qed.

Lemma normalized_length x : length (clearText x) <= length x.
Proof.
  rewrite clearText_stages.
  etransitivity; [apply normalizeSpace_length|apply stripTags_length].
Qed.

(** C10.  The output of [clearText] is never longer than its input. *)
Theorem clearText_length x : length (clearText x) <= length x.
Proof. apply normalized_length. Qed.

(** C7, as stated, fails when whitespace is what [strings.TrimSpace] trims:
    the vertical tab is white space for Unicode and is outside [\s], so a
    run of two of them stays. *)
Lemma clearText_keeps_vertical_tabs :
  strings.space1 x0b = true
  /\ clearText [x61; x0b; x0b; x62] = [x61; x0b; x0b; x62]
  /\ noRun strings.space1 (clearText [x61; x0b; x0b; x62]) = false.
Proof. repeat split. Qed.

(** C7, as amended.  The output of [clearText] has no white space, in the
    sense of Unicode, at its start or at its end: [strings.TrimSpace] leaves
    it as it is, and its first and its last byte are no ASCII white space.
    It has no two neighbouring bytes of the class [\s] (tab, newline, form
    feed, carriage return, space): each byte of that class in it is a
    single ASCII space. *)
Theorem clearText_whitespace_law x :
  (trimmed (clearText x)
   /\ strings.TrimSpace (clearText x) = clearText x
   /\ headIn strings.space1 (clearText x) = false
   /\ headIn strings.space1 (rev (clearText x)) = false)
  /\ noRun regexp.space (clearText x) = true
  /\ forallb spaceIsBlank (clearText x) = true.
Proof.
  rewrite clearText_stages.
  pose proof (normalizeSpace_trimmed (stripTags x)) as T.
  split; [|rewrite normalizeSpace_collapse;
           split; [apply collapse_noRun|apply collapse_blank]].
  split; [easy|]; split; [apply trimmed_fixed; easy|].
  destruct T as [T1 T2]; split; eapply startsSpace_head; eassumption.
Qed.

(** C2, as stated, fails: taking [<b>] out of [<<b>b>] leaves [<b>], which
    a second pass removes. *)
Lemma clearText_not_idempotent :
  clearText (str "<<b>b>") = str "<b>"
  /\ clearText (clearText (str "<<b>b>")) <> clearText (str "<<b>b>").
Proof. split; [reflexivity|discriminate]. Qed.

(** A second pass changes nothing exactly when the first stage finds
    nothing in the output of the first pass. *)
Lemma clearText_fixed_iff x :
  clearText (clearText x) = clearText x
  <-> stripTags (clearText x) = clearText x.
Proof.
  split; intros H.
  - apply stripTags_length.
    pose proof (normalized_length (clearText x)) as H1.
    rewrite H in H1 at 1.
    pose proof (normalizeSpace_length (stripTags (clearText x))) as H2.
    rewrite <- clearText_stages, H in H2.
    pose proof (proj1 (stripTags_length (clearText x))); lia.
  - rewrite (clearText_stages (clearText x)), H.
    rewrite clearText_stages; apply normalizeSpace_idempotent.
Qed.

(** C2, as amended.  A second pass of [clearText] changes nothing exactly
    when the output of the first holds no marker or bare tag any more; the
    whitespace stages on their own are idempotent. *)
Theorem clearText_idempotent_iff x :
  (clearText (clearText x) = clearText x
   <-> stripTags (clearText x) = clearText x)
  /\ normalizeSpace (normalizeSpace x) = normalizeSpace x.
Proof.
  split; [apply clearText_fixed_iff|apply normalizeSpace_idempotent].
Qed.

(** Neither pattern of the program matches the empty string, so that the
    scan [replaceFrom] replaces every match it meets. *)
Lemma patterns_never_match_empty s :
  regexp.matchLen textCleanRegex s <> Some 0
  /\ regexp.matchLen whitespaceRegex s <> Some 0.
Proof.
  split; intros E.
  - apply matchLen_textClean_head in E as (_ & _ & H); lia.
  - unfold whitespaceRegex in E; rewrite matchLen_Plus in E.
    destruct (span regexp.space s); discriminate E.
Qed.

(** A text without [<] goes through the first stage as it is, and the
    whitespace stages bring no [<] in. *)
Lemma stripTags_plain x : ~ In x3c x -> stripTags x = x.
Proof.
  intros H; rewrite stripTags_dropMatched; unfold regexp.matched.
  rewrite <- (app_nil_r x) at 1; rewrite matched_no_lt by easy.
  cbn [regexp.matchedFrom]; rewrite app_nil_r; apply dropMatched_false.
Qed.

Lemma collapse_In c i s : In c (collapse i s) -> In c s \/ c = x20.
Proof.
  revert i; induction s as [|b s IH]; intros i; [easy|].
  cbn [collapse]; destruct (regexp.space b); [destruct i|].
  - intros H%IH; destruct H; [left; right|right]; easy.
  - intros [<-|H%IH]; [right; easy|].
    destruct H; [left; right|right]; easy.
  - intros [<-|H%IH]; [left; left; easy|].
    destruct H; [left; right|right]; easy.
Qed.

Lemma TrimSpace_In c s : In c (strings.TrimSpace s) -> In c s.
Proof.
  unfold strings.TrimSpace, strings.trimRightSpace, strings.trimLeftSpace.
  intros H%in_rev.
  match type of H with In _ (strings.dropSpaces ?f ?g ?l) =>
    destruct (dropSpaces_suffix f g l) as (p1 & E1) end.
  assert (H1 : In c (rev (strings.dropSpaces strings.space2 strings.space3 s)))
    by (rewrite E1; apply in_or_app; right; easy).
  apply in_rev in H1.
  destruct (dropSpaces_suffix strings.space2 strings.space3 s) as (p2 & E2).
  rewrite E2; apply in_or_app; right; easy.
Qed.

Lemma clearText_idempotent_plain x :
  ~ In x3c x -> clearText (clearText x) = clearText x.
Proof.
  intros H; apply clearText_fixed_iff, stripTags_plain.
  rewrite clearText_stages, (stripTags_plain x H), normalizeSpace_collapse.
  intros [H1|H1]%collapse_In; [|discriminate].
  apply H, TrimSpace_In; easy.
Qed.

(** ** The normalizer: tags that carry a space *)

(** C9, as stated, fails on "preserved verbatim": a run of two spaces
    inside a tag is collapsed like any other. *)
Lemma clearText_rewrites_inside_tag :
  clearText (str "<b  c>") = str "<b c>"
  /\ ~ (exists a b, clearText (str "<b  c>") = a ++ str "<b  c>" ++ b).
Proof.
  split; [reflexivity|].
  intros (a & b & H); apply (f_equal (@length byte)) in H.
  rewrite !length_app in H; simpl in H; lia.
Qed.

(** C9, as amended.  A tag [<...>] with a space between its brackets is
    matched by neither branch of the tag pattern, wherever it stands: none
    of its bytes is removed, and the first stage hands it on whole.  The
    whitespace stages then treat it like the rest of the text, so that it
    stands verbatim in the output of [clearText] when its own whitespace
    is single ASCII spaces already.  What the pattern does match is always
    a marker or a bare tag, and holds no space. *)
Theorem spaced_tag_survives pre u post :
  existsb (Byte.eqb x20) u = true ->
  forallb (regexp.noneOf (str "<>")) u = true ->
  let tag := x3c :: u ++ [x3e] in
  keptIn textCleanRegex pre tag post
  /\ (exists a b, stripTags (pre ++ tag ++ post) = a ++ tag ++ b)
  /\ (noRun regexp.space u = true -> forallb spaceIsBlank u = true ->
      exists a b, clearText (pre ++ tag ++ post) = a ++ tag ++ b)
  /\ (forall s n,
        regexp.matchLen textCleanRegex s = Some n ->
        (isMarker (firstn n s) \/ isBareTag (firstn n s))
        /\ ~ In x20 (firstn n s)).
Proof.
  intros Hsp%existsb_In Hu tag.
  assert (Hlt : ~ In x3c u) by (eapply noneOf_not_In; [|eassumption]; simpl; auto).
  assert (Hgt : ~ In x3e u) by (eapply noneOf_not_In; [|eassumption]; simpl; auto).
  destruct (kept_tag_scan x20 pre u post ltac:(simpl; auto) Hsp Hlt Hgt)
    as (X & HL & HX).
  fold tag in HX.
  assert (Hstrip : stripTags (pre ++ tag ++ post)
                   = dropMatched X pre ++ tag ++ stripTags post).
  { rewrite stripTags_dropMatched, HX, dropMatched_app by easy.
    rewrite dropMatched_app by apply repeat_length.
    rewrite dropMatched_false, <- stripTags_dropMatched; easy. }
  split; [|split; [|split]].
  - intros i Hi; rewrite HX, app_nth2 by lia.
    rewrite HL; apply nth_repeat_app; lia.
  - eauto.
  - intros Hrun Hblank; rewrite clearText_stages, Hstrip.
    rewrite normalizeSpace_collapse; unfold tag.
    cbn [app]; rewrite <- app_assoc; cbn [app].
    destruct (TrimSpace_keeps (dropMatched X pre) x3c u x3e (stripTags post))
      as (A' & B' & ->); try reflexivity.
    rewrite collapse_app_keep, collapse_app_keep by reflexivity.
    rewrite (collapse_fixed u Hrun Hblank).
    exists (collapse false A'), (collapse false B').
    cbn [app]; rewrite <- app_assoc; easy.
  - intros s n E.
    apply matchLen_textClean_sound in E as (m & rest & -> & L & ->).
    rewrite firstn_app, Nat.sub_diag, firstn_all, firstn_O, app_nil_r.
    split; [easy|].
    destruct L as [(ds & _ & D & ->)|(v & _ & V & ->)].
    + intros H; simpl in H.
      destruct H as [H|[H|[H|H]]]; try discriminate.
      apply in_app_or in H as [H|H];
        [|simpl in H; intuition discriminate].
      revert H; eapply forallb_not_In; [eassumption|easy].
    + intros [H|H]; [discriminate|].
      apply in_app_or in H as [H|[H|[]]]; [|discriminate].
      revert H; eapply forallb_not_In; [eassumption|easy].
Qed.

Lemma spaced_tag_survives_witness :
  let u := str "div class=" ++ [dquote] ++ str "x" ++ [dquote] in
  let tag := x3c :: u ++ [x3e] in
  keptIn textCleanRegex (str "<p>") tag (str "</p>")
  /\ (exists a b, clearText (str "<p>" ++ tag ++ str "</p>") = a ++ tag ++ b)
  /\ clearText (str "<p>" ++ tag ++ str "</p>") = tag.
Proof.
  intros u tag.
  destruct (spaced_tag_survives (str "<p>") u (str "</p>")
              eq_refl eq_refl) as (Hkept & _ & Hout & _).
  split; [exact Hkept|]; split; [|reflexivity].
  apply Hout; reflexivity.
Defined.

(** ** The request path *)

Section path.
Import strings.

Lemma splitByte_none sep s :
  ~ In sep s -> splitByte sep s = [s].
Proof.
  induction s as [|b s IH]; simpl; intros H; [easy|].
  destruct (Byte.eqb b sep) eqn:E;
    [apply byte_dec_bl in E; subst; tauto|].
  rewrite IH by tauto; easy.
Qed.

Lemma splitByte_app sep a rest :
  ~ In sep a -> splitByte sep (a ++ sep :: rest) = a :: splitByte sep rest.
Proof.
  induction a as [|b a IH]; simpl; intros H.
  - rewrite (byte_dec_lb eq_refl); easy.
  - destruct (Byte.eqb b sep) eqn:E;
      [apply byte_dec_bl in E; subst; tauto|].
    rewrite IH by tauto; easy.
Qed.

Lemma isSegment_spec name :
  isSegment name = true <-> name <> [] /\ ~ In x2f name.
Proof.
  unfold isSegment; rewrite andb_true_iff, !negb_true_iff.
  rewrite <- existsb_In, Nat.eqb_neq, length_zero_iff_nil.
  destruct (existsb (Byte.eqb x2f) name); intuition congruence.
Qed.

(** The path of a request for one translation splits in two. *)
Lemma verse_path_parts name :
  isSegment name = true ->
  Split (Trim (str "/get-random-verse/" ++ name) (str "/")) (str "/")
  = [str "get-random-verse"; name].
Proof.
  intros [Hne Hsl]%isSegment_spec.
  assert (T : Trim (str "/get-random-verse/" ++ name) (str "/")
              = str "get-random-verse/" ++ name).
  { unfold Trim; cbn [str list_byte_of_string app dropWhile].
    cbn -[rev]; rewrite <- (rev_involutive (_ :: _)) at 2; f_equal.
    change (x67 :: ?l) with (str "get-random-verse/" ++ name).
    rewrite rev_app_distr.
    destruct (rev name) as [|c l] eqn:E.
    - apply (f_equal (@rev byte)) in E; rewrite rev_involutive in E.
      simpl in E; congruence.
    - cbn [app dropWhile existsb].
      destruct (Byte.eqb c x2f) eqn:Ec; [|easy].
      apply byte_dec_bl in Ec; subst c; destruct Hsl.
      apply in_rev; rewrite E; left; easy. }
  rewrite T; unfold Split; cbn [str list_byte_of_string].
  change (splitByte x2f (str "get-random-verse" ++ x2f :: name)
          = [str "get-random-verse"; name]).
  rewrite splitByte_app, splitByte_none; try easy.
  simpl; intuition discriminate.
Qed.

Lemma translations_lookup name path :
  translations !! name = Some path ->
  (name = str "KJV" /\ path = str "assets/KJV+.Sqlite3")
  \/ (name = str "RST" /\ path = str "assets/RST+.Sqlite3").
Proof.
  unfold translations; intros H.
  apply lookup_insert_Some in H as [[<- <-]|[_ H]]; [auto|].
  apply lookup_insert_Some in H as [[<- <-]|[_ H]]; [auto|].
  rewrite lookup_empty in H; easy.
Qed.

Lemma translations_segment name :
  is_Some (translations !! name) -> isSegment name = true.
Proof.
  intros [path H]; apply translations_lookup in H as [[-> _]|[-> _]]; easy.
Qed.

End path.

(** ** The verse handler *)

Section verse.
Variable env : Env.
Variable pool : gmap gostring DB.
Variable r : http.Request.
Hypothesis not_options : http.Method r <> str "OPTIONS".

Local Abbreviation corsHeaders :=
  (http.HeaderSet (str "Access-Control-Allow-Headers") (str "Content-Type")
     (http.HeaderSet (str "Access-Control-Allow-Methods")
        (str "GET, OPTIONS")
        (http.HeaderSet (str "Access-Control-Allow-Origin") (str "*")
           http.newResponseWriter))).

(** A request that is no preflight passes the two middlewares, which set
    the CORS headers and log one line. *)
Lemma route_get (h : HandlerFunc) :
  exists msg,
    serve (corsMiddleware (loggingMiddleware h)) pool r
    = let (w, s) := h corsHeaders r
                      {| dbPool := pool; opened := 0;
                         trace := [LogPrintf msg] |} in
      (http.finish w, trace s).
Proof.
  eexists; unfold serve, corsMiddleware, loggingMiddleware.
  destruct (decide (http.Method r = str "OPTIONS")) as [E|_]; [easy|].
  unfold bind, emit; cbn [dbPool opened trace app]; reflexivity.
Qed.

Lemma respondWithError_finish w message code :
  http.wrote w = None ->
  http.finish (respondWithError w message code)
  = {| http.status := code;
       http.headers :=
         <[str "Content-Type" := str "application/json"]> (http.header w);
       http.content :=
         http.body w
         ++ json.encode true (ErrorResponse_json {| Error := message |}) |}.
Proof.
  intros H; unfold respondWithError, http.finish, http.Write,
    http.WriteHeader, http.HeaderSet.
  cbn [http.wrote http.header http.body]; rewrite H.
  cbn [http.wrote http.header http.body]; reflexivity.
Qed.

End verse.

Lemma write_finish w key value p :
  http.wrote w = None ->
  http.finish (http.Write p (http.HeaderSet key value w))
  = {| http.status := http.StatusOK;
       http.headers := <[key := value]> (http.header w);
       http.content := http.body w ++ p |}.
Proof.
  intros H; unfold http.finish, http.Write, http.WriteHeader, http.HeaderSet.
  cbn; rewrite H; cbn; reflexivity.
Qed.

Lemma get_not_options r :
  http.Method r = str "GET" -> http.Method r <> str "OPTIONS".
Proof. intros ->; discriminate. Qed.

(** C4.  A [GET] for [/get-random-verse/name], where [name] is one path
    segment that the registry does not hold, is answered with status 404 and
    with the JSON object whose one key is [error]; on the way the handler
    touches neither the pool nor a database (it only logs the request). *)
Theorem unknown_translation_not_found env pool r name :
  isSegment name = true ->
  translations !! name = None ->
  http.Method r = str "GET" ->
  http.URLPath r = str "/get-random-verse/" ++ name ->
  let resp := fst (serve (verseRoute env) pool r) in
  let done := snd (serve (verseRoute env) pool r) in
  http.status resp = http.StatusNotFound
  /\ http.content resp
     = json.encode true
         (json.Obj [ (str "error",
                      json.Str (str "Translation '" ++ name
                                ++ str "' not found")) ])
  /\ http.headers resp !! str "Content-Type" = Some (str "application/json")
  /\ forallb (fun e => negb (isDatabaseAccess e)) done = true.
Proof.
  intros Hseg Hnone Hget Hpath; unfold verseRoute.
  destruct (route_get pool r (get_not_options r Hget)
              (getRandomVerseHandler env)) as (msg & ->).
  unfold getRandomVerseHandler.
  rewrite Hpath, (verse_path_parts _ Hseg); cbn [length Nat.eqb negb nth].
  rewrite Hnone; unfold ret.
  rewrite respondWithError_finish by reflexivity.
  cbn [fst snd http.status http.content http.headers trace forallb
       isDatabaseAccess negb andb].
  repeat split; apply lookup_insert_eq.
Qed.

Lemma unknown_translation_not_found_witness :
  let r := {| http.Method := str "GET";
              http.URLPath := str "/get-random-verse/XYZ";
              http.Header := ∅; http.RemoteAddr := str "10.0.0.1:4000" |} in
  let env := {| statNotExist := fun _ => false; openError := fun _ => None;
                pingError := fun _ => None;
                queryRow := fun _ => inr (str "no rows");
                rangeTranslations := map_to_list translations;
                rangePool := map_to_list; envPORT := [];
                listenError := None |} in
  http.status (fst (serve (verseRoute env) {[ str "KJV" := 0 ]} r)) = 404%Z
  /\ snd (serve (verseRoute env) {[ str "KJV" := 0 ]} r)
     = [LogPrintf (str "[GET] /get-random-verse/XYZ from 10.0.0.1:4000")].
Proof.
  intros r env; split; [|vm_compute; reflexivity].
  apply (unknown_translation_not_found env {[ str "KJV" := 0 ]} r (str "XYZ"));
    vm_compute; reflexivity.
Defined.

(** ** The pool at startup and the health handler *)

Lemma initDatabases_loop_absent env name todo : forall s,
  (forall p, In (name, p) todo -> statNotExist env p = true) ->
  dbPool s !! name = None ->
  dbPool (snd (initDatabases_loop env todo s)) !! name = None.
Proof.
  induction todo as [|[n p] todo IH]; intros s Hmiss Hs; [easy|].
  cbn [initDatabases_loop]; unfold bind at 1, emit at 1.
  assert (Hrest : forall p', In (name, p') todo -> statNotExist env p' = true)
    by (intros p' H; apply Hmiss; right; easy).
  destruct (statNotExist env p) eqn:Estat.
  { unfold bind, emit; apply IH; easy. }
  assert (Hn : n <> name).
  { intros ->; rewrite Hmiss in Estat; [easy|left; easy]. }
  unfold bind at 1, sqlOpen; cbn [dbPool opened trace].
  destruct (openError env _); [easy|].
  unfold bind at 1, emit at 1; unfold bind at 1, emit at 1.
  unfold bind at 1, emit at 1; cbn [dbPool opened trace].
  destruct (pingError env _).
  - unfold bind, emit; apply IH; easy.
  - unfold bind, emit, poolStore; apply IH; [easy|].
    cbn [dbPool]; rewrite lookup_insert_ne; easy.
Qed.

Lemma initDatabases_absent env name path :
  rangesOk env -> translations !! name = Some path ->
  statNotExist env path = true ->
  dbPool (snd (initDatabases env {| dbPool := ∅; opened := 0; trace := [] |}))
    !! name = None.
Proof.
  intros [Hperm _] Hreg Hmiss; unfold initDatabases, bind.
  pose proof (initDatabases_loop_absent env name (rangeTranslations env)
                {| dbPool := ∅; opened := 0; trace := [] |}) as H.
  destruct (initDatabases_loop env (rangeTranslations env) _) as [res s].
  cbn [snd] in H.
  assert (Hs : dbPool s !! name = None).
  { apply H; [|easy].
    intros p Hin; apply list_elem_of_In in Hin.
    rewrite Hperm in Hin; apply elem_of_map_to_list in Hin.
    rewrite Hreg in Hin; injection Hin as <-; easy. }
  destruct res; [easy|].
  unfold getPool; destruct (decide _); easy.
Qed.

Lemma rangePool_keys env pool :
  rangesOk env ->
  NoDup (map fst (rangePool env pool))
  /\ forall k, In k (map fst (rangePool env pool)) <-> is_Some (pool !! k).
Proof.
  intros [_ Hperm]; specialize (Hperm pool); split.
  - change (NoDup ((rangePool env pool).*1)).
    rewrite Hperm; apply NoDup_fst_map_to_list.
  - intros k; rewrite <- list_elem_of_In.
    change (k ∈ (rangePool env pool).*1 <-> is_Some (pool !! k)).
    rewrite Hperm, list_elem_of_fmap.
    split.
    + intros ([k' v] & -> & H%elem_of_map_to_list); eauto.
    + intros [v H]; exists (k, v); split; [easy|].
      apply elem_of_map_to_list; easy.
Qed.

(** C3.  For a translation that the registry holds and the pool does not,
    a [GET] for [/get-random-verse/name] is answered with status 503 and an
    error object, and a [GET] for [/health] lists exactly the keys of the
    pool, each once, and so not [name].  A translation whose file is missing
    when [initDatabases] runs is one of these. *)
Theorem known_but_unavailable env pool r rh name path :
  translations !! name = Some path ->
  pool !! name = None ->
  rangesOk env ->
  http.Method r = str "GET" ->
  http.URLPath r = str "/get-random-verse/" ++ name ->
  http.Method rh = str "GET" ->
  let resp := fst (serve (verseRoute env) pool r) in
  let health := fst (serve (healthRoute env) pool rh) in
  (http.status resp = http.StatusServiceUnavailable
   /\ http.content resp
      = json.encode true
          (json.Obj [ (str "error",
                       json.Str (str "Database for translation '" ++ name
                                 ++ str "' is not available")) ]))
  /\ (http.status health = http.StatusOK
      /\ exists l,
           http.content health = json.encode true (health_json l)
           /\ NoDup l
           /\ (forall k, In k l <-> is_Some (pool !! k))
           /\ ~ In name l)
  /\ (statNotExist env path = true ->
      dbPool (snd (initDatabases env
                     {| dbPool := ∅; opened := 0; trace := [] |}))
        !! name = None).
Proof.
  intros Hreg Hpool Hranges Hget Hpath Hgeth; split; [|split].
  - unfold verseRoute.
    destruct (route_get pool r (get_not_options r Hget)
                (getRandomVerseHandler env)) as (msg & ->).
    unfold getRandomVerseHandler.
    rewrite Hpath, (verse_path_parts name)
      by (apply translations_segment; eauto).
    cbn [length Nat.eqb negb nth]; rewrite Hreg.
    unfold bind, emit, getPool, ret; cbn [dbPool opened trace].
    rewrite Hpool, respondWithError_finish by reflexivity.
    split; reflexivity.
  - unfold healthRoute.
    destruct (route_get pool rh (get_not_options rh Hgeth)
                (healthHandler env)) as (msg & ->).
    unfold healthHandler, bind, emit, getPool, ret; cbn [dbPool opened trace].
    split; [reflexivity|].
    exists (map fst (rangePool env pool)); split; [reflexivity|].
    destruct (rangePool_keys env pool Hranges) as [Hnd Hkeys].
    repeat split; try easy; try apply Hkeys.
    intros H%Hkeys; rewrite Hpool in H; destruct H; easy.
  - intros Hmiss; eapply initDatabases_absent; eauto.
Qed.

Lemma known_but_unavailable_witness :
  let r := {| http.Method := str "GET";
              http.URLPath := str "/get-random-verse/RST";
              http.Header := ∅; http.RemoteAddr := str "10.0.0.1:4000" |} in
  let rh := {| http.Method := str "GET"; http.URLPath := str "/health";
               http.Header := ∅; http.RemoteAddr := str "10.0.0.1:4000" |} in
  let env := {| statNotExist :=
                  fun p => bool_decide (p = str "assets/RST+.Sqlite3");
                openError := fun _ => None; pingError := fun _ => None;
                queryRow := fun _ => inr (str "no rows");
                rangeTranslations := map_to_list translations;
                rangePool := map_to_list; envPORT := [];
                listenError := None |} in
  let pool : gmap gostring DB := {[ str "KJV" := 0 ]} in
  http.status (fst (serve (verseRoute env) pool r)) = 503%Z
  /\ (exists l,
        http.content (fst (serve (healthRoute env) pool rh))
        = json.encode true (health_json l)
        /\ ~ In (str "RST") l)
  /\ dbPool (snd (initDatabases env
                    {| dbPool := ∅; opened := 0; trace := [] |}))
       !! str "RST" = None.
Proof.
  intros r rh env pool.
  assert (Hranges : rangesOk env)
    by (split; [|intros m]; apply Permutation_refl).
  destruct (known_but_unavailable env pool r rh (str "RST")
              (str "assets/RST+.Sqlite3") eq_refl eq_refl Hranges
              eq_refl eq_refl eq_refl)
    as ((Hstatus & _) & (_ & l & Hl & _ & _ & Hnot) & Hinit).
  split; [exact Hstatus|]; split; [exists l; split; assumption|].
  apply Hinit; reflexivity.
Defined.

(** ** The encoder and HTML escaping *)

Section escaping.
Import json.

Lemma hex_plain n : htmlByte (hex n) = false.
Proof.
  unfold hex; do 17 (destruct n as [|n]; [reflexivity|]).
  destruct n; reflexivity.
Qed.

Lemma escape_plain b : forallb (fun c => negb (htmlByte c)) (escape b) = true.
Proof.
  unfold escape.
  destruct (Byte.eqb b x5c || Byte.eqb b x22) eqn:E.
  - apply orb_true_iff in E as [E|E]; apply byte_dec_bl in E; subst;
      reflexivity.
  - repeat match goal with |- context [if ?c then _ else _] =>
             destruct c; [reflexivity|] end.
    rewrite forallb_app; cbn [forallb]; rewrite !hex_plain; reflexivity.
Qed.

Lemma hi_plain b : strings.hi b = true -> htmlByte b = false.
Proof. destruct b; intros H; try discriminate H; reflexivity. Qed.

Lemma cont_hi lo h b :
  128 <= lo -> cont lo h b = true -> strings.hi b = true.
Proof.
  unfold cont, strings.hi; intros Hlo [H _]%andb_true_iff.
  apply Nat.leb_le in H; apply Nat.leb_le; lia.
Qed.

(** The bytes of a rune behind its first one are outside ASCII. *)
Lemma runeWidth_hi b0 s n :
  runeWidth (b0 :: s) = S n -> forallb strings.hi (firstn n s) = true.
Proof.
  unfold runeWidth; destruct s as [|b1 rest]; [easy|].
  set (n0 := Byte.to_nat b0).
  destruct ((194 <=? n0) && (n0 <=? 223)).
  { destruct (cont 128 191 b1) eqn:C1; [|easy]; intros [= <-]; simpl.
    rewrite (cont_hi _ _ _ (le_n _) C1); easy. }
  destruct ((224 <=? n0) && (n0 <=? 239)).
  { destruct rest as [|b2 rest]; [easy|].
    destruct (cont _ _ b1 && cont 128 191 b2) eqn:C; [|easy].
    apply andb_true_iff in C as [C1 C2]; intros [= <-]; simpl.
    assert (H1 : strings.hi b1 = true)
      by (eapply cont_hi; [|exact C1]; destruct (n0 =? 224); lia).
    rewrite (cont_hi _ _ _ (le_n _) C2), H1; easy. }
  destruct ((240 <=? n0) && (n0 <=? 244)); [|easy].
  destruct rest as [|b2 [|b3 rest]]; try easy.
  destruct (cont _ _ b1 && cont 128 191 b2 && cont 128 191 b3) eqn:C;
    [|easy].
  apply andb_true_iff in C as [[C1 C2]%andb_true_iff C3].
  intros [= <-]; simpl.
  assert (H1 : strings.hi b1 = true)
    by (eapply cont_hi; [|exact C1]; destruct (n0 =? 240); lia).
  rewrite (cont_hi _ _ _ (le_n _) C2), (cont_hi _ _ _ (le_n _) C3), H1.
  easy.
Qed.

(** With HTML escaping no [<], [>] or [&] is written. *)
Lemma appendFrom_escaped s : forall keep drop,
  forallb strings.hi (firstn keep s) = true ->
  forallb (fun c => negb (htmlByte c)) (appendFrom true keep drop s) = true.
Proof.
  induction s as [|b s IH]; intros keep drop Hkeep; [easy|].
  cbn [appendFrom]; destruct keep as [|k].
  - destruct drop as [|d]; [|apply IH; easy].
    destruct (strings.hi b) eqn:Hb.
    + destruct (runeWidth (b :: s)) as [|n] eqn:W.
      * rewrite forallb_app, IH by easy; easy.
      * destruct (lineSep (b :: s)) as [h|] eqn:Eh.
        -- assert (htmlByte h = false) as Hh.
           { unfold lineSep in Eh; destruct s as [|b1 [|b2 s2]]; try easy.
             destruct (_ && _); [|easy]; injection Eh as <-.
             apply hex_plain. }
           rewrite forallb_app; cbn [forallb]; rewrite Hh, IH by easy; easy.
        -- cbn [forallb]; rewrite (hi_plain _ Hb), IH; [easy|].
           eapply runeWidth_hi; eassumption.
    + destruct (safe true b) eqn:Sb.
      * cbn [forallb]; rewrite IH by easy.
        unfold safe in Sb; apply andb_true_iff in Sb as [_ Sb].
        cbn [andb] in Sb; rewrite Sb; easy.
      * rewrite forallb_app, escape_plain, IH by easy; easy.
  - cbn [firstn forallb] in Hkeep.
    apply andb_true_iff in Hkeep as [Hb Hk].
    cbn [forallb]; rewrite (hi_plain _ Hb), IH by easy; easy.
Qed.

Lemma appendString_escaped s :
  forallb (fun c => negb (htmlByte c)) (appendString true s) = true.
Proof.
  unfold appendString; rewrite !forallb_app, appendFrom_escaped; easy.
Qed.

(** Without HTML escaping a string of printable ASCII other than the
    quote and the backslash is written as it is, [<], [>] and [&]
    included. *)
Lemma appendFrom_verbatim s :
  forallb (safe false) s = true -> appendFrom false 0 0 s = s.
Proof.
  induction s as [|b s IH]; [easy|]; cbn [forallb appendFrom].
  intros [Hb Hs]%andb_true_iff; rewrite Hb, IH by easy.
  replace (strings.hi b) with false; [easy|].
  unfold safe in Hb; unfold strings.hi.
  apply andb_true_iff in Hb as [[[[_ Hb]%andb_true_iff _]%andb_true_iff _]%andb_true_iff _].
  apply Nat.leb_le in Hb; symmetry; apply Nat.leb_gt; lia.
Qed.

End escaping.

(** ** Responses *)

Lemma join_forallb (P : byte -> bool) sep l :
  forallb P sep = true -> Forall (fun x => forallb P x = true) l ->
  forallb P (json.join sep l) = true.
Proof.
  intros Hsep; induction 1 as [|x l Hx Hl IH]; [easy|].
  cbn [json.join]; destruct l as [|y l]; [easy|].
  rewrite !forallb_app, Hx, Hsep, IH; easy.
Qed.

Lemma ErrorResponse_escaped e :
  forallb (fun c => negb (json.htmlByte c))
    (json.encode true (ErrorResponse_json e)) = true.
Proof.
  unfold json.encode, ErrorResponse_json; cbn [json.marshal map json.join fst snd].
  rewrite !forallb_app, !appendString_escaped; easy.
Qed.

Lemma health_escaped l :
  forallb (fun c => negb (json.htmlByte c))
    (json.encode true (health_json l)) = true.
Proof.
  unfold json.encode, health_json; cbn [json.marshal map json.join fst snd].
  rewrite !forallb_app, !appendString_escaped.
  rewrite join_forallb; [easy|easy|].
  rewrite map_map; apply List.Forall_forall.
  intros x (s & <- & _)%in_map_iff.
  apply appendString_escaped.
Qed.

(** C5, as stated, fails for the error responses: [respondWithError] writes
    with a new encoder, which escapes HTML, so the [&] of a requested name
    comes back as [&]. *)
Lemma error_response_escapes_html :
  let r := {| http.Method := str "GET";
              http.URLPath := str "/get-random-verse/A&B";
              http.Header := ∅; http.RemoteAddr := str "10.0.0.1:4000" |} in
  let env := {| statNotExist := fun _ => false; openError := fun _ => None;
                pingError := fun _ => None;
                queryRow := fun _ => inr (str "no rows");
                rangeTranslations := map_to_list translations;
                rangePool := map_to_list; envPORT := [];
                listenError := None |} in
  let resp := fst (serve (verseRoute env) {[ str "KJV" := 0 ]} r) in
  http.content resp
  = str "{" ++ [dquote] ++ str "error" ++ [dquote] ++ str ":" ++ [dquote]
    ++ str "Translation 'A\u0026B' not found" ++ [dquote] ++ str "}"
    ++ [x0a]
  /\ existsb (Byte.eqb x26) (http.content resp) = false.
Proof. vm_compute; split; reflexivity. Qed.

(** C5, as amended.  Every response that the two handlers write to a
    request other than a preflight declares [Content-Type:
    application/json] and is the JSON encoding of one value and a newline.
    HTML escaping is off in the verse response alone, where printable ASCII
    text other than the quote and the backslash goes out as it is; the
    error responses and the health response are written with escaping on
    and hold no [<], [>] or [&], which the encoder writes as [\u003c],
    [\u003e] and [\u0026]. *)
Theorem responses_are_json env pool r :
  http.Method r <> str "OPTIONS" ->
  let verse := fst (serve (verseRoute env) pool r) in
  let health := fst (serve (healthRoute env) pool r) in
  (http.headers verse !! str "Content-Type" = Some (str "application/json")
   /\ ((http.status verse = http.StatusOK
        /\ exists v,
             http.content verse = json.encode false (VerseResponse_json v))
       \/ (http.status verse <> http.StatusOK
           /\ exists message,
                http.content verse
                = json.encode true (ErrorResponse_json {| Error := message |})
                /\ forallb (fun c => negb (json.htmlByte c))
                     (http.content verse) = true)))
  /\ (http.headers health !! str "Content-Type"
      = Some (str "application/json")
      /\ http.status health = http.StatusOK
      /\ http.content health
         = json.encode true (health_json (map fst (rangePool env pool)))
      /\ forallb (fun c => negb (json.htmlByte c)) (http.content health)
         = true)
  /\ (forall s, forallb (json.safe false) s = true ->
                json.appendString false s = [dquote] ++ s ++ [dquote])
  /\ json.appendString true (str "<>&")
     = [dquote] ++ str "\u003c\u003e\u0026" ++ [dquote].
Proof.
  intros Hopt; split; [|split; [|split; [|reflexivity]]].
  - unfold verseRoute.
    destruct (route_get pool r Hopt (getRandomVerseHandler env)) as (msg & ->).
    unfold getRandomVerseHandler.
    assert (Herr : forall w message code s,
              http.wrote w = None -> http.body w = [] ->
              code <> http.StatusOK ->
              let resp := fst (let (w', s') :=
                                 ret (respondWithError w message code) s in
                               (http.finish w', trace s')) in
              http.headers resp !! str "Content-Type"
                = Some (str "application/json")
              /\ (http.status resp = http.StatusOK
                  /\ (exists v, http.content resp
                                = json.encode false (VerseResponse_json v))
                  \/ http.status resp <> http.StatusOK
                     /\ exists message0,
                          http.content resp
                          = json.encode true
                              (ErrorResponse_json {| Error := message0 |})
                          /\ forallb (fun c => negb (json.htmlByte c))
                               (http.content resp) = true)).
    { intros w message code s Hw Hb Hcode; unfold ret; cbn [fst].
      rewrite respondWithError_finish by easy.
      cbn [http.headers http.status http.content]; rewrite Hb.
      split; [apply lookup_insert_eq|right].
      split; [easy|]; exists message; split; [easy|].
      apply ErrorResponse_escaped. }
    destruct (negb _); [apply Herr; auto; discriminate|].
    destruct (translations !! _); [|apply Herr; auto; discriminate].
    unfold bind, emit, getPool; cbn [dbPool opened trace].
    destruct (pool !! _) as [db|]; [|apply Herr; auto; discriminate].
    destruct (queryRow env db) as [row|err];
      [|apply Herr; auto; discriminate].
    unfold ret; cbn [fst]; rewrite write_finish by reflexivity.
    cbn [http.headers http.status http.content].
    split; [apply lookup_insert_eq|left].
    split; [reflexivity|eexists; reflexivity].
  - unfold healthRoute.
    destruct (route_get pool r Hopt (healthHandler env)) as (msg & ->).
    unfold healthHandler, bind, emit, getPool, ret.
    cbn [fst dbPool opened trace]; rewrite write_finish by reflexivity.
    cbn [http.headers http.status http.content].
    split; [apply lookup_insert_eq|].
    split; [reflexivity|]; split; [reflexivity|].
    apply health_escaped.
  - intros s Hs; unfold json.appendString.
    rewrite appendFrom_verbatim; easy.
Qed.

Lemma responses_are_json_witness :
  let r := {| http.Method := str "GET";
              http.URLPath := str "/get-random-verse/KJV";
              http.Header := ∅; http.RemoteAddr := str "10.0.0.1:4000" |} in
  let row := {| row_book_number := 1; row_chapter := 1; row_verse := 1;
                row_text := str "<S>1</S>Adam & Eve";
                row_short_name := str "Gen";
                row_long_name := str "Genesis" |} in
  let env := {| statNotExist := fun _ => false; openError := fun _ => None;
                pingError := fun _ => None; queryRow := fun _ => inl row;
                rangeTranslations := map_to_list translations;
                rangePool := map_to_list; envPORT := [];
                listenError := None |} in
  let pool : gmap gostring DB := {[ str "KJV" := 0 ]} in
  http.headers (fst (serve (verseRoute env) pool r)) !! str "Content-Type"
  = Some (str "application/json")
  /\ json.appendString false (str "Adam & Eve")
     = [dquote] ++ str "Adam & Eve" ++ [dquote]
  /\ existsb (Byte.eqb x26)
       (http.content (fst (serve (verseRoute env) pool r))) = true.
Proof.
  intros r row env pool.
  destruct (responses_are_json env pool r ltac:(discriminate))
    as ((Hct & _) & _ & Hplain & _).
  split; [exact Hct|]; split; [apply Hplain; reflexivity|].
  vm_compute; reflexivity.
Defined.

(** ** The life of the handles *)

Lemma opens_snoc db t e :
  opens db (t ++ [e]) = opens db t + (if isOpen db e then 1 else 0).
Proof.
  unfold opens; rewrite List.filter_app, length_app; simpl.
  destruct (isOpen db e); reflexivity.
Qed.

Lemma closes_snoc db t e :
  closes db (t ++ [e]) = closes db t + (if isClose db e then 1 else 0).
Proof.
  unfold closes; rewrite List.filter_app, length_app; simpl.
  destruct (isClose db e); reflexivity.
Qed.

(** An event that neither opens nor closes a handle keeps the handles in
    order. *)
Lemma handlesOk_emit e s :
  (forall db, isOpen db e = false) -> (forall db, isClose db e = false) ->
  handlesOk s -> handlesOk (snd (emit e s)).
Proof.
  intros Ho Hc (H1 & H2 & H3); unfold emit, handlesOk, pooled.
  cbn [snd dbPool opened trace].
  split; [|split]; intros db.
  - rewrite opens_snoc, Ho, H1; lia.
  - intros H; apply H2 in H; rewrite closes_snoc, Hc; lia.
  - intros H; rewrite closes_snoc, opens_snoc, Ho, Hc, (H3 db H); easy.
Qed.

Lemma emit_dbPool e s : dbPool (snd (emit e s)) = dbPool s.
Proof. reflexivity. Qed.

(** [initDatabases] keeps the handles in order, on each of its ways out,
    when the registry is ranged over without repetition. *)
Lemma initDatabases_loop_handlesOk env todo : forall s,
  NoDup (map fst todo) ->
  (forall n, In n (map fst todo) -> dbPool s !! n = None) ->
  handlesOk s ->
  handlesOk (snd (initDatabases_loop env todo s)).
Proof.
  induction todo as [|[name path] todo IH]; intros s Hnd Hfresh Hok; [easy|].
  cbn [map fst] in Hnd, Hfresh; apply NoDup_cons in Hnd as [Hname Hnd].
  assert (Hname' : ~ In name (map fst todo))
    by (intros H; apply Hname, list_elem_of_In; easy).
  cbn [initDatabases_loop]; unfold bind at 1.
  pose proof (handlesOk_emit (OsStat path) s
                ltac:(easy) ltac:(easy) Hok) as Hok1.
  destruct (emit (OsStat path) s) as [[] s1] eqn:E1.
  assert (P1 : dbPool s1 = dbPool s)
    by (rewrite <- (emit_dbPool (OsStat path) s), E1; easy).
  cbn [snd] in Hok1.
  destruct (statNotExist env path).
  { unfold bind at 1.
    match goal with |- context [emit ?e s1] =>
      pose proof (handlesOk_emit e s1 ltac:(easy) ltac:(easy) Hok1) as Hok2;
      pose proof (emit_dbPool e s1) as P2;
      destruct (emit e s1) as [[] s2] end.
    cbn [snd] in *; apply IH; [easy| |easy].
    intros n Hn; rewrite P2, P1; apply Hfresh; right; easy. }
  unfold bind at 1, sqlOpen.
  destruct (openError env _) as [err|].
  { cbn [snd ret]; destruct Hok1 as (H1 & H2 & H3).
    unfold handlesOk, pooled; cbn [dbPool opened trace].
    split; [|split]; intros db.
    - rewrite opens_snoc; cbn [isOpen]; rewrite H1; lia.
    - intros H; apply H2 in H; rewrite closes_snoc; cbn [isClose]; lia.
    - intros H; rewrite closes_snoc, opens_snoc; cbn [isOpen isClose].
      rewrite (H3 db H); easy. }
  set (d := opened s1).
  set (s2 := {| dbPool := dbPool s1; opened := S d;
                trace := trace s1 ++ [SqlOpen _ (Some d)] |}).
  assert (Hd : ~ pooled d s1).
  { intros H; apply Hok1 in H; unfold d in H; lia. }
  assert (Hopen : forall db,
            opens db (trace s2) = if db <? opened s2 then 1 else 0).
  { intros db; unfold s2; cbn [trace opened].
    rewrite opens_snoc; cbn [isOpen].
    destruct Hok1 as (H1 & _); rewrite H1; fold d.
    destruct (Nat.eqb_spec db d) as [->|Hne].
    - rewrite Nat.ltb_irrefl, (proj2 (Nat.ltb_lt d (S d))) by lia; easy.
    - destruct (Nat.ltb_spec db d), (Nat.ltb_spec db (S d)); lia. }
  assert (Hclose : forall db, closes db (trace s2) = closes db (trace s1)).
  { intros db; unfold s2; cbn [trace]; rewrite closes_snoc; cbn; lia. }
  assert (Hd0 : closes d (trace s1) = 0).
  { destruct Hok1 as (H1 & _ & H3); rewrite (H3 d Hd), H1; fold d.
    rewrite Nat.ltb_irrefl; easy. }
  assert (Hop2 : opened s2 = S d) by reflexivity.
  assert (P2 : dbPool s2 = dbPool s1) by reflexivity.
  clearbody s2.
  unfold bind at 1, emit at 1; unfold bind at 1, emit at 1.
  unfold bind at 1, emit at 1; cbn [dbPool opened trace].
  destruct Hok1 as (H1 & H2 & H3).
  destruct (pingError env d) as [err|].
  - unfold bind at 1, emit at 1; unfold bind at 1, emit at 1.
    cbn [dbPool opened trace].
    apply IH; [easy| |].
    { intros n Hn; cbn [dbPool]; rewrite P2, P1; apply Hfresh; right; easy. }
    unfold handlesOk, pooled; cbn [dbPool opened trace].
    split; [|split]; intros db;
      rewrite ?opens_snoc, ?closes_snoc; cbn [isOpen isClose];
      rewrite ?Nat.add_0_r, ?Hopen, ?Hclose, ?Hop2, ?P2.
    + easy.
    + intros H; pose proof (H2 db H) as [Hlt Hc]; fold d in Hlt.
      destruct (Nat.eqb_spec db d); lia.
    + intros H; rewrite (H3 db H), H1; fold d.
      destruct (Nat.eqb_spec db d) as [->|Hne].
      * rewrite Nat.ltb_irrefl, (proj2 (Nat.ltb_lt d (S d))) by lia; easy.
      * destruct (Nat.ltb_spec db d), (Nat.ltb_spec db (S d)); lia.
  - unfold bind at 1, poolStore; unfold bind at 1, emit at 1.
    cbn [dbPool opened trace].
    assert (Hnone : dbPool s1 !! name = None)
      by (rewrite P1; apply Hfresh; left; easy).
    apply IH; [easy| |].
    { intros n Hn; cbn [dbPool]; rewrite lookup_insert_ne;
        [rewrite P2, P1; apply Hfresh; right; easy|congruence]. }
    unfold handlesOk, pooled; cbn [dbPool opened trace].
    split; [|split]; intros db;
      rewrite ?opens_snoc, ?closes_snoc; cbn [isOpen isClose];
      rewrite ?Nat.add_0_r, ?Hopen, ?Hclose, ?Hop2, ?P2.
    + easy.
    + intros [n Hn]; apply lookup_insert_Some in Hn as [[_ <-]|[_ Hn]];
        [lia|].
      pose proof (H2 db (ex_intro _ n Hn)) as [Hlt Hc]; fold d in Hlt; lia.
    + intros Hnp; assert (Hne : db <> d).
      { intros ->; apply Hnp; exists name; apply lookup_insert_eq. }
      assert (Hnp1 : ~ pooled db s1).
      { intros [n Hn]; apply Hnp; exists n.
        rewrite lookup_insert_ne; [easy|congruence]. }
      rewrite (H3 db Hnp1), H1; fold d.
      destruct (Nat.ltb_spec db d), (Nat.ltb_spec db (S d)); lia.
Qed.


Lemma initDatabases_handlesOk env s :
  NoDup (map fst (rangeTranslations env)) ->
  dbPool s = ∅ -> handlesOk s ->
  handlesOk (snd (initDatabases env s)).
Proof.
  intros Hnd Hempty Hok; unfold initDatabases, bind.
  pose proof (initDatabases_loop_handlesOk env (rangeTranslations env) s Hnd)
    as H.
  destruct (initDatabases_loop env (rangeTranslations env) s) as [res s1].
  cbn [snd] in H.
  assert (Hok1 : handlesOk s1).
  { apply H; [|easy]; intros n _; rewrite Hempty; apply lookup_empty. }
  destruct res; [easy|]; unfold getPool; destruct (decide _); easy.
Qed.

(** Whenever [ListenAndServe] returns an error, as it does whenever it
    returns, the program has left through [log.Fatalf] with its handles as
    [initDatabases] left them: every pooled handle is opened once and not
    closed, and only the handles whose ping failed are closed, once. *)
Lemma main_handlesOk env :
  NoDup (map fst (rangeTranslations env)) ->
  listenError env <> None ->
  handlesOk (run env).
Proof.
  intros Hnd Hlisten; unfold run, main.
  set (s0 := {| dbPool := ∅; opened := 0; trace := [] |}).
  assert (Hok0 : handlesOk s0).
  { unfold handlesOk, pooled, s0; cbn; split; [easy|split].
    - intros db [n H]; rewrite lookup_empty in H; easy.
    - easy. }
  unfold bind at 1.
  match goal with |- context [emit ?e s0] =>
    pose proof (handlesOk_emit e s0 ltac:(easy) ltac:(easy) Hok0) as Hok1;
    pose proof (emit_dbPool e s0) as P1;
    destruct (emit e s0) as [[] s1] end.
  cbn [snd] in Hok1, P1; unfold bind at 1.
  pose proof (initDatabases_handlesOk env s1 Hnd P1 Hok1) as Hok2.
  destruct (initDatabases env s1) as [res s2]; cbn [snd] in Hok2.
  assert (Hemit : forall e s,
            (forall db, isOpen db e = false) ->
            (forall db, isClose db e = false) ->
            handlesOk s -> handlesOk (snd (emit e s)))
    by (intros; apply handlesOk_emit; easy).
  destruct res as [err|].
  { unfold bind; cbn [emit snd]; do 2 (apply Hemit; [easy|easy|]); easy. }
  destruct (listenError env) as [err|]; [|easy].
  unfold bind, getPool; cbn [emit snd].
  do 8 (apply Hemit; [easy|easy|]); easy.
Qed.

Lemma pooled_never_closed env name db :
  NoDup (map fst (rangeTranslations env)) ->
  listenError env <> None ->
  dbPool (run env) !! name = Some db ->
  opens db (trace (run env)) = 1 /\ closes db (trace (run env)) = 0.
Proof.
  intros Hnd Hlisten Hpool.
  destruct (main_handlesOk env Hnd Hlisten) as (H1 & H2 & _).
  destruct (H2 db (ex_intro _ name Hpool)) as [Hlt Hc].
  rewrite H1, (proj2 (Nat.ltb_lt _ _) Hlt); easy.
Qed.

Example pooled_never_closed_port_in_use :
  opens 1 (trace (run envPortInUse)) = 1
  /\ closes 1 (trace (run envPortInUse)) = 0.
Proof.
  apply (pooled_never_closed envPortInUse (str "RST") 1);
    [|discriminate|reflexivity].
  apply NoDup_ListNoDup; repeat constructor; simpl; intuition discriminate.
Qed.

(** ** The ways out of [main] *)

(** C6: the claim fails on the code.  When the server cannot start, [main]
    leaves through [log.Fatalf]: the deferred loop that closes the pool does
    not run, and the two handles that [initDatabases] pooled are opened once
    and closed never.  When [sql.Open] fails for the second translation,
    [initDatabases] returns at once and [main] leaves the same way, with
    the handle of the first one still open. *)
Theorem main_exits_without_closing :
  (let done := trace (run envPortInUse) in
   dbPool (run envPortInUse) = {[ str "KJV" := 0; str "RST" := 1 ]}
   /\ opens 0 done = 1 /\ closes 0 done = 0
   /\ opens 1 done = 1 /\ closes 1 done = 0
   /\ last done = Some (OsExit 1))
  /\ (let done := trace (run envOpenFails) in
      dbPool (run envOpenFails) = {[ str "KJV" := 0 ]}
      /\ opens 0 done = 1 /\ closes 0 done = 0
      /\ last done = Some (OsExit 1)).
Proof.
  assert (P : forall m : gmap gostring DB, forall l,
            map_to_list m = l -> m = list_to_map l)
    by (intros m l <-; symmetry; apply list_to_map_to_list).
  split; (split; [|vm_compute; repeat split; reflexivity]).
  - apply (P _ [(str "KJV", 0); (str "RST", 1)]); vm_compute; reflexivity.
  - apply (P _ [(str "KJV", 0)]); vm_compute; reflexivity.
Qed.

(** * Further properties of the code *)

(** ** [clearText]: edge cases and composition *)

Lemma replaceFrom_skip r repl k s :
  regexp.replaceFrom r repl k s = regexp.replaceFrom r repl 0 (skipn k s).
Proof.
  revert k; induction s as [|b s IH]; intros [|k]; try easy.
  cbn [regexp.replaceFrom skipn]; apply IH.
Qed.

Lemma dropSpaces_all_space sp2 sp3 x :
  forallb strings.space1 x = true -> strings.dropSpaces sp2 sp3 x = [].
Proof.
  induction x as [|b x IH]; [easy|]; cbn [forallb].
  intros [Hb Hx]%andb_true_iff; rewrite dropSpaces_eq, Hb; auto.
Qed.

Lemma space1_not_lt x : forallb strings.space1 x = true -> ~ In x3c x.
Proof. intros H; eapply forallb_not_In; [eassumption|reflexivity]. Qed.

(** X1.  An input that is empty or made of ASCII white space only (tab,
    newline, vertical tab, form feed, carriage return, space) is normalized
    to the empty string. *)
Theorem clearText_blank x :
  forallb strings.space1 x = true -> clearText x = [].
Proof.
  intros H; rewrite clearText_stages, (stripTags_plain x (space1_not_lt x H)).
  rewrite normalizeSpace_collapse.
  unfold strings.TrimSpace, strings.trimRightSpace, strings.trimLeftSpace.
  rewrite (dropSpaces_all_space _ _ x H); reflexivity.
Qed.

Lemma clearText_blank_witness :
  clearText [] = [] /\ clearText [x20; x09; x0a; x0b; x0c; x0d; x20] = [].
Proof.
  split; [apply (clearText_blank []); reflexivity|].
  apply (clearText_blank [x20; x09; x0a; x0b; x0c; x0d; x20]); reflexivity.
Defined.

Lemma dropMatched_In c mask : forall s, In c (dropMatched mask s) -> In c s.
Proof.
  induction mask as [|[] mask IH]; intros [|b s]; simpl; try easy.
  - intros H; right; apply IH; easy.
  - intros [<-|H]; [left; easy|right; apply IH; easy].
Qed.

Lemma collapse_from_input c i s :
  In c (collapse i s) ->
  In c s \/ (c = x20 /\ existsb regexp.space s = true).
Proof.
  revert i; induction s as [|b s IH]; intros i; [easy|].
  cbn [collapse existsb]; destruct (regexp.space b) eqn:Hb; [destruct i|].
  - intros [H|[-> _]]%IH; [left; right; easy|right; easy].
  - intros [<-|[H|[-> _]]%IH]; [right; easy|left; right; easy|right; easy].
  - intros [<-|[H|[-> H]]%IH];
      [left; left; easy|left; right; easy|right; easy].
Qed.

(** X2.  [clearText] brings no new byte into the text: every byte of its
    output is a byte of its input, or it is the ASCII space and the input
    holds a byte of the class [\s] (tab, newline, form feed, carriage
    return, space). *)
Theorem clearText_bytes_from_input c x :
  In c (clearText x) ->
  In c x \/ (c = x20 /\ existsb regexp.space x = true).
Proof.
  rewrite clearText_stages, normalizeSpace_collapse, stripTags_dropMatched.
  intros [H|[-> H]]%collapse_from_input.
  - left; eapply dropMatched_In, TrimSpace_In; eassumption.
  - right; split; [easy|].
    apply existsb_exists in H as (b & Hb & Hsp).
    apply existsb_exists; exists b; split; [|easy].
    eapply dropMatched_In, TrimSpace_In; eassumption.
Qed.

Lemma clearText_bytes_from_input_witness :
  clearText (str "a<b>" ++ [x09] ++ str "c") = str "a c"
  /\ (In x20 (str "a<b>" ++ [x09] ++ str "c")
      \/ (x20 = x20
          /\ existsb regexp.space (str "a<b>" ++ [x09] ++ str "c") = true)).
Proof.
  split; [reflexivity|].
  apply (clearText_bytes_from_input x20 (str "a<b>" ++ [x09] ++ str "c")).
  right; left; reflexivity.
Defined.

Lemma stripTags_plain_prefix pre y :
  ~ In x3c pre -> stripTags (pre ++ y) = pre ++ stripTags y.
Proof.
  intros H; rewrite !stripTags_dropMatched; unfold regexp.matched.
  rewrite matched_no_lt, dropMatched_app by (easy || apply repeat_length).
  rewrite dropMatched_false; reflexivity.
Qed.

Lemma stripTags_marker_head m post :
  isMarker m -> stripTags (m ++ post) = stripTags post.
Proof.
  intros L.
  assert (E : regexp.matchLen textCleanRegex (m ++ post) = Some (length m)).
  { unfold textCleanRegex; rewrite matchLen_Alt.
    rewrite (matchLen_unambiguous markerRegex m post
               markerRegex_unambiguous); [easy|].
    apply lang_markerRegex; easy. }
  destruct (textClean_head m (or_introl L)) as (m' & ->).
  unfold stripTags, regexp.ReplaceAllString.
  rewrite <- app_comm_cons in *; cbn [regexp.replaceFrom].
  rewrite E; cbn [length app]; rewrite replaceFrom_skip.
  rewrite skipn_app, skipn_all, Nat.sub_diag; reflexivity.
Qed.

(** X3.  A verse-number marker that stands at the start of the text, or
    behind text without [<], is cut out and leaves no trace: the result is
    that of the text without the marker. *)
Theorem clearText_cuts_marker pre m post :
  existsb (Byte.eqb x3c) pre = false ->
  isMarker m ->
  clearText (pre ++ m ++ post) = clearText (pre ++ post).
Proof.
  intros Hpre L.
  assert (H : ~ In x3c pre)
    by (intros H%existsb_In; congruence).
  rewrite !clearText_stages.
  rewrite (stripTags_plain_prefix pre (m ++ post) H).
  rewrite (stripTags_plain_prefix pre post H).
  rewrite stripTags_marker_head by easy; reflexivity.
Qed.

Lemma clearText_cuts_marker_witness :
  isMarker (str "<S>12</S>")
  /\ clearText (str "In " ++ str "<S>12</S>" ++ str "the beginning")
     = clearText (str "In " ++ str "the beginning").
Proof.
  assert (L : isMarker (str "<S>12</S>"))
    by (exists (str "12"); repeat split; discriminate).
  split; [exact L|].
  apply (clearText_cuts_marker (str "In ") (str "<S>12</S>")
           (str "the beginning") eq_refl L).
Defined.

Lemma normalized_plain x : ~ In x3c x -> clearText x = normalizeSpace x.
Proof. intros H; rewrite clearText_stages, stripTags_plain; easy. Qed.

(** X4.  On a text without [<] the tag stage does nothing: [clearText] is
    the whitespace normalization alone, and a second pass changes
    nothing. *)
Theorem clearText_plain x :
  existsb (Byte.eqb x3c) x = false ->
  clearText x = normalizeSpace x
  /\ clearText (clearText x) = clearText x.
Proof.
  intros Hx.
  assert (H : ~ In x3c x) by (intros H%existsb_In; congruence).
  split; [apply normalized_plain; easy|].
  apply clearText_idempotent_plain; easy.
Qed.

Lemma clearText_plain_witness :
  clearText (str "  In  the beginning ") = str "In the beginning"
  /\ clearText (clearText (str "  In  the beginning "))
     = clearText (str "  In  the beginning ").
Proof.
  split; [reflexivity|].
  apply (clearText_plain (str "  In  the beginning ")); reflexivity.
Defined.

(** ** The middlewares and the verse handler *)

Lemma serve_fst (h : HandlerFunc) pool r :
  fst (serve h pool r)
  = http.finish (fst (h http.newResponseWriter r
                        {| dbPool := pool; opened := 0; trace := [] |})).
Proof. unfold serve; destruct (h _ _ _); reflexivity. Qed.

Lemma serve_snd (h : HandlerFunc) pool r :
  snd (serve h pool r)
  = trace (snd (h http.newResponseWriter r
                  {| dbPool := pool; opened := 0; trace := [] |})).
Proof. unfold serve; destruct (h _ _ _); reflexivity. Qed.

Lemma cors_options (next : HandlerFunc) pool r :
  http.Method r = str "OPTIONS" ->
  serve (corsMiddleware next) pool r
  = ({| http.status := http.StatusOK; http.headers := corsHeaderMap;
        http.content := [] |}, []).
Proof.
  intros H; unfold serve, corsMiddleware.
  destruct (decide _) as [_|N]; [reflexivity|easy].
Qed.

(** X5.  A preflight request, one whose method is [OPTIONS], is answered by
    [corsMiddleware] itself, whatever handler it wraps: status 200, the
    three CORS headers and nothing else, an empty body.  The wrapped handler
    does not run, so the request is not logged and neither the pool nor a
    database is touched. *)
Theorem preflight_short_circuits (next : HandlerFunc) pool r :
  http.Method r = str "OPTIONS" ->
  serve (corsMiddleware next) pool r
  = ({| http.status := http.StatusOK; http.headers := corsHeaderMap;
        http.content := [] |}, []).
Proof. apply cors_options. Qed.

Lemma preflight_short_circuits_witness :
  let r := {| http.Method := str "OPTIONS";
              http.URLPath := str "/get-random-verse/KJV";
              http.Header := ∅; http.RemoteAddr := str "10.0.0.1:4000" |} in
  serve (verseRoute envPortInUse) {[ str "KJV" := 0 ]} r
  = ({| http.status := 200; http.headers := corsHeaderMap;
        http.content := [] |}, []).
Proof.
  intros r.
  apply (preflight_short_circuits
           (loggingMiddleware (getRandomVerseHandler envPortInUse))
           {[ str "KJV" := 0 ]} r).
  reflexivity.
Defined.

Lemma route_get_fst pool r (h : HandlerFunc) :
  http.Method r <> str "OPTIONS" ->
  exists msg,
    fst (serve (corsMiddleware (loggingMiddleware h)) pool r)
    = http.finish
        (fst (h (http.HeaderSet (str "Access-Control-Allow-Headers")
                   (str "Content-Type")
                   (http.HeaderSet (str "Access-Control-Allow-Methods")
                      (str "GET, OPTIONS")
                      (http.HeaderSet (str "Access-Control-Allow-Origin")
                         (str "*") http.newResponseWriter))) r
                {| dbPool := pool; opened := 0; trace := [LogPrintf msg] |})).
Proof.
  intros H; destruct (route_get pool r H h) as (msg & ->); exists msg.
  destruct (h _ _ _); reflexivity.
Qed.

(** The verse handler answers with the header [Content-Type] added to the
    headers it finds. *)
Lemma getRandomVerseHandler_headers env w r s :
  http.wrote w = None ->
  http.headers (http.finish (fst (getRandomVerseHandler env w r s)))
  = <[str "Content-Type" := str "application/json"]> (http.header w).
Proof.
  intros H; unfold getRandomVerseHandler.
  destruct (negb _); [unfold ret; cbn [fst];
                      rewrite respondWithError_finish by easy; easy|].
  destruct (translations !! _);
    [|unfold ret; cbn [fst]; rewrite respondWithError_finish by easy; easy].
  unfold bind, emit, getPool; cbn [dbPool opened trace].
  destruct (dbPool s !! _) as [db|];
    [|unfold ret; cbn [fst]; rewrite respondWithError_finish by easy; easy].
  destruct (queryRow env db);
    unfold ret; cbn [fst];
    [rewrite write_finish by easy|rewrite respondWithError_finish by easy];
    easy.
Qed.

Lemma healthHandler_finish env w r s :
  http.wrote w = None ->
  http.finish (fst (healthHandler env w r s))
  = {| http.status := http.StatusOK;
       http.headers :=
         <[str "Content-Type" := str "application/json"]> (http.header w);
       http.content :=
         http.body w
         ++ json.encode true
              (health_json (map fst (rangePool env (dbPool s)))) |}.
Proof.
  intros H; unfold healthHandler, bind, emit, getPool, ret.
  cbn [fst dbPool opened trace]; rewrite write_finish by easy; reflexivity.
Qed.

(** X6.  The headers of every response are known exactly.  A preflight
    carries the three CORS headers; every other response of the two routes,
    an error as well as a success, carries these three and
    [Content-Type: application/json], and no header besides. *)
Theorem response_headers env pool r :
  let expected :=
    if decide (http.Method r = str "OPTIONS") then corsHeaderMap
    else <[str "Content-Type" := str "application/json"]> corsHeaderMap in
  http.headers (fst (serve (verseRoute env) pool r)) = expected
  /\ http.headers (fst (serve (healthRoute env) pool r)) = expected.
Proof.
  cbv zeta; unfold verseRoute, healthRoute.
  destruct (decide (http.Method r = str "OPTIONS")) as [E|N].
  - rewrite !cors_options by easy; split; reflexivity.
  - destruct (route_get_fst pool r (getRandomVerseHandler env) N)
      as (msg & ->).
    destruct (route_get_fst pool r (healthHandler env) N) as (msg' & ->).
    rewrite getRandomVerseHandler_headers, healthHandler_finish by easy.
    split; reflexivity.
Qed.

(** The response of the verse handler is a function of the trimmed path
    and of the pool. *)
Lemma getRandomVerseHandler_path env w r r' s s' :
  strings.Trim (http.URLPath r) (str "/")
  = strings.Trim (http.URLPath r') (str "/") ->
  dbPool s = dbPool s' ->
  fst (getRandomVerseHandler env w r s)
  = fst (getRandomVerseHandler env w r' s').
Proof.
  intros E P; unfold getRandomVerseHandler; rewrite E.
  destruct (negb _); [easy|].
  destruct (translations !! _); [|easy].
  unfold bind, emit, getPool, ret; cbn [dbPool opened trace]; rewrite P.
  destruct (dbPool s' !! _) as [db|]; [|easy].
  destruct (queryRow env db); easy.
Qed.

Lemma verse_response_path env pool r r' :
  http.Method r <> str "OPTIONS" ->
  http.Method r' <> str "OPTIONS" ->
  strings.Trim (http.URLPath r) (str "/")
  = strings.Trim (http.URLPath r') (str "/") ->
  fst (serve (verseRoute env) pool r) = fst (serve (verseRoute env) pool r').
Proof.
  intros N N' E; unfold verseRoute.
  destruct (route_get_fst pool r (getRandomVerseHandler env) N) as (msg & ->).
  destruct (route_get_fst pool r' (getRandomVerseHandler env) N')
    as (msg' & ->).
  f_equal; apply getRandomVerseHandler_path; easy.
Qed.

(** X7.  The verse route looks at nothing of a request but its path, with
    the slashes at its two ends taken off: two requests that agree on it
    get the same response, whatever their methods (other than [OPTIONS]),
    their headers and their remote addresses.  In particular a [POST] or a
    [DELETE] is served like a [GET]. *)
Theorem verse_response_depends_on_path env pool r r' :
  http.Method r <> str "OPTIONS" ->
  http.Method r' <> str "OPTIONS" ->
  strings.Trim (http.URLPath r) (str "/")
  = strings.Trim (http.URLPath r') (str "/") ->
  fst (serve (verseRoute env) pool r) = fst (serve (verseRoute env) pool r').
Proof. apply verse_response_path. Qed.

Lemma verse_response_depends_on_path_witness :
  let r := {| http.Method := str "GET";
              http.URLPath := str "/get-random-verse/KJV";
              http.Header := ∅; http.RemoteAddr := str "10.0.0.1:4000" |} in
  let r' := {| http.Method := str "DELETE";
               http.URLPath := str "/get-random-verse/KJV";
               http.Header := {[ str "X-Real-IP" := str "192.0.2.7" ]};
               http.RemoteAddr := str "10.0.0.2:5000" |} in
  fst (serve (verseRoute envPortInUse) {[ str "KJV" := 0 ]} r)
  = fst (serve (verseRoute envPortInUse) {[ str "KJV" := 0 ]} r').
Proof.
  intros r r'.
  apply (verse_response_depends_on_path envPortInUse {[ str "KJV" := 0 ]}
           r r'); [discriminate|discriminate|reflexivity].
Defined.

Section trim.
Import strings.

Local Abbreviation isSlash := (fun b => existsb (Byte.eqb b) (str "/")).

Lemma dropWhile_snoc_slash q :
  (dropWhile isSlash (q ++ [x2f]) = [] /\ dropWhile isSlash q = [])
  \/ dropWhile isSlash (q ++ [x2f]) = dropWhile isSlash q ++ [x2f].
Proof.
  induction q as [|b q IH]; [left; split; reflexivity|].
  cbn [app dropWhile]; destruct (existsb (Byte.eqb b) (str "/"));
    [exact IH|right; reflexivity].
Qed.

Lemma Trim_snoc_slash q : Trim (q ++ [x2f]) (str "/") = Trim q (str "/").
Proof.
  unfold Trim; destruct (dropWhile_snoc_slash q) as [[-> ->] | ->]; [easy|].
  rewrite rev_app_distr; reflexivity.
Qed.

Lemma Trim_trailing_slashes q n :
  Trim (q ++ repeat x2f n) (str "/") = Trim q (str "/").
Proof.
  induction n as [|n IH]; [rewrite app_nil_r; easy|].
  cbn [repeat]; rewrite repeat_cons, app_assoc, Trim_snoc_slash; exact IH.
Qed.

Lemma Trim_cons_slash q : Trim (x2f :: q) (str "/") = Trim q (str "/").
Proof. reflexivity. Qed.

End trim.

(** X8.  Slashes at the end of the path make no difference to the verse
    route: [/get-random-verse/KJV/] is served like [/get-random-verse/KJV],
    and so is the path with any number of slashes behind it. *)
Theorem verse_trailing_slashes env pool r r' n :
  http.Method r <> str "OPTIONS" ->
  http.Method r' <> str "OPTIONS" ->
  http.URLPath r' = http.URLPath r ++ repeat x2f n ->
  fst (serve (verseRoute env) pool r') = fst (serve (verseRoute env) pool r).
Proof.
  intros N N' E; apply verse_response_path; try easy.
  rewrite E; apply Trim_trailing_slashes.
Qed.

Lemma verse_trailing_slashes_witness :
  let r := {| http.Method := str "GET";
              http.URLPath := str "/get-random-verse/KJV";
              http.Header := ∅; http.RemoteAddr := str "10.0.0.1:4000" |} in
  let r' := {| http.Method := str "GET";
               http.URLPath := str "/get-random-verse/KJV//";
               http.Header := ∅; http.RemoteAddr := str "10.0.0.1:4000" |} in
  fst (serve (verseRoute envPortInUse) {[ str "KJV" := 0 ]} r')
  = fst (serve (verseRoute envPortInUse) {[ str "KJV" := 0 ]} r).
Proof.
  intros r r'.
  apply (verse_trailing_slashes envPortInUse {[ str "KJV" := 0 ]} r r' 2);
    [discriminate|discriminate|reflexivity].
Defined.

(** [Split] gives one piece more than there are separators. *)
Lemma splitByte_length sep s :
  length (strings.splitByte sep s) = S (count_occ Byte.byte_eq_dec s sep).
Proof.
  induction s as [|b s IH]; [reflexivity|].
  cbn [strings.splitByte count_occ].
  destruct (Byte.byte_eq_dec b sep) as [->|N].
  - rewrite (byte_dec_lb eq_refl); cbn [length]; rewrite IH; reflexivity.
  - destruct (Byte.eqb b sep) eqn:E; [apply byte_dec_bl in E; easy|].
    destruct (strings.splitByte sep s); [discriminate IH|exact IH].
Qed.

Lemma parts_length p :
  (length (strings.Split p (str "/")) =? 2) = (slashes p =? 1).
Proof.
  change (str "/") with [x2f]; unfold strings.Split.
  rewrite splitByte_length; reflexivity.
Qed.

(** The status of each of the answers of the verse handler. *)
Lemma getRandomVerseHandler_status env w r s :
  http.wrote w = None ->
  let resp := http.finish (fst (getRandomVerseHandler env w r s)) in
  (slashes (strings.Trim (http.URLPath r) (str "/")) =? 1) = true ->
  http.status resp <> http.StatusBadRequest.
Proof.
  intros H resp E; unfold resp, getRandomVerseHandler.
  rewrite parts_length, E; cbn [negb].
  destruct (translations !! _);
    [|unfold ret; cbn [fst]; rewrite respondWithError_finish by easy; easy].
  unfold bind, emit, getPool; cbn [dbPool opened trace].
  destruct (dbPool s !! _) as [db|];
    [|unfold ret; cbn [fst]; rewrite respondWithError_finish by easy; easy].
  destruct (queryRow env db);
    unfold ret; cbn [fst];
    [rewrite write_finish by easy|rewrite respondWithError_finish by easy];
    easy.
Qed.

(** X9.  The verse route answers 400 exactly when the path, with the
    slashes at its two ends taken off, does not hold exactly one slash: a
    path without a translation name, such as [/get-random-verse/], or with
    a segment too many.  The body is then the error object for
    [Invalid URL format], and neither the pool nor a database is touched. *)
Theorem malformed_path_bad_request env pool r :
  http.Method r <> str "OPTIONS" ->
  let resp := fst (serve (verseRoute env) pool r) in
  let done := snd (serve (verseRoute env) pool r) in
  let n := slashes (strings.Trim (http.URLPath r) (str "/")) in
  (n <> 1 ->
   http.status resp = http.StatusBadRequest
   /\ http.content resp
      = json.encode true
          (ErrorResponse_json {| Error := str "Invalid URL format" |})
   /\ forallb (fun e => negb (isDatabaseAccess e)) done = true)
  /\ (n = 1 -> http.status resp <> http.StatusBadRequest).
Proof.
  intros N resp done n; split; intros Hn.
  - unfold resp, done, verseRoute.
    destruct (route_get pool r N (getRandomVerseHandler env)) as (msg & ->).
    unfold getRandomVerseHandler; rewrite parts_length.
    fold n; rewrite (proj2 (Nat.eqb_neq n 1) Hn); cbn [negb]; unfold ret.
    rewrite respondWithError_finish by reflexivity.
    repeat split; reflexivity.
  - unfold resp, verseRoute.
    destruct (route_get_fst pool r (getRandomVerseHandler env) N)
      as (msg & ->).
    apply getRandomVerseHandler_status; [reflexivity|].
    apply Nat.eqb_eq; exact Hn.
Qed.

Lemma malformed_path_bad_request_witness :
  let r := {| http.Method := str "GET";
              http.URLPath := str "/get-random-verse/";
              http.Header := ∅; http.RemoteAddr := str "10.0.0.1:4000" |} in
  let r' := {| http.Method := str "GET";
               http.URLPath := str "/get-random-verse/KJV/1";
               http.Header := ∅; http.RemoteAddr := str "10.0.0.1:4000" |} in
  http.status (fst (serve (verseRoute envPortInUse) {[ str "KJV" := 0 ]} r))
  = 400%Z
  /\ http.status (fst (serve (verseRoute envPortInUse) {[ str "KJV" := 0 ]}
                         r'))
     = 400%Z.
Proof.
  intros r r'; split.
  - apply (malformed_path_bad_request envPortInUse {[ str "KJV" := 0 ]} r);
      [discriminate|vm_compute; lia].
  - apply (malformed_path_bad_request envPortInUse {[ str "KJV" := 0 ]} r');
      [discriminate|vm_compute; lia].
Defined.

(** X10.  A request for a translation of the registry whose handle is in
    the pool, when the query gives a row, is answered with status 200 and
    the JSON encoding, HTML escaping off, of the verse: the requested name
    as the translation, the numbers and the two titles of the row as they
    are, and the text of the row passed through [clearText].  On the way
    the handler logs the request, reads the pool under the read lock and
    runs one query on the pooled handle after the lock is released. *)
Theorem verse_found env pool r name path db row :
  translations !! name = Some path ->
  pool !! name = Some db ->
  queryRow env db = inl row ->
  http.Method r <> str "OPTIONS" ->
  http.URLPath r = str "/get-random-verse/" ++ name ->
  exists line,
    serve (verseRoute env) pool r
    = ({| http.status := http.StatusOK;
          http.headers :=
            <[str "Content-Type" := str "application/json"]> corsHeaderMap;
          http.content :=
            json.encode false
              (VerseResponse_json
                 {| Translation := name;
                    BookNumber := row_book_number row;
                    BookTitle := row_long_name row;
                    BookTitleShort := row_short_name row;
                    Chapter := row_chapter row;
                    Verse := row_verse row;
                    Text := clearText (row_text row) |}) |},
       [LogPrintf line; RLock; PoolLookup name; RUnlock; QueryRow db]).
Proof.
  intros Hreg Hpool Hrow N Hpath; unfold verseRoute.
  destruct (route_get pool r N (getRandomVerseHandler env)) as (msg & ->).
  exists msg; unfold getRandomVerseHandler.
  rewrite Hpath, (verse_path_parts name)
    by (apply translations_segment; eauto).
  cbn [length Nat.eqb negb nth]; rewrite Hreg.
  unfold bind, emit, getPool, ret; cbn [dbPool opened trace].
  rewrite Hpool, Hrow, write_finish by reflexivity; reflexivity.
Qed.

Lemma verse_found_witness :
  let r := {| http.Method := str "GET";
              http.URLPath := str "/get-random-verse/KJV";
              http.Header := ∅; http.RemoteAddr := str "10.0.0.1:4000" |} in
  let row := {| row_book_number := 10; row_chapter := 1; row_verse := 1;
                row_text := str "<S>7225</S>In the  <pb/>beginning ";
                row_short_name := str "Gen";
                row_long_name := str "Genesis" |} in
  let env := {| statNotExist := fun _ => false; openError := fun _ => None;
                pingError := fun _ => None; queryRow := fun _ => inl row;
                rangeTranslations := map_to_list translations;
                rangePool := map_to_list; envPORT := [];
                listenError := None |} in
  let pool : gmap gostring DB := {[ str "KJV" := 0 ]} in
  exists line,
    snd (serve (verseRoute env) pool r)
    = [LogPrintf line; RLock; PoolLookup (str "KJV"); RUnlock; QueryRow 0]
    /\ http.content (fst (serve (verseRoute env) pool r))
       = json.encode false
           (VerseResponse_json
              {| Translation := str "KJV"; BookNumber := 10;
                 BookTitle := str "Genesis"; BookTitleShort := str "Gen";
                 Chapter := 1; Verse := 1;
                 Text := str "In the beginning" |}).
Proof.
  intros r row env pool.
  destruct (verse_found env pool r (str "KJV")
              (str "assets/KJV+.Sqlite3") 0 row eq_refl eq_refl eq_refl
              ltac:(discriminate) eq_refl) as (line & E).
  exists line; rewrite E; split; reflexivity.
Defined.

(** X11.  When the query fails, the answer is status 500 with the fixed
    body [Failed to retrieve verse]: the error of the database goes to the
    log, with the name of the translation, and no part of it to the
    client. *)
Theorem verse_query_fails env pool r name path db err :
  translations !! name = Some path ->
  pool !! name = Some db ->
  queryRow env db = inr err ->
  http.Method r <> str "OPTIONS" ->
  http.URLPath r = str "/get-random-verse/" ++ name ->
  exists line,
    serve (verseRoute env) pool r
    = ({| http.status := http.StatusInternalServerError;
          http.headers :=
            <[str "Content-Type" := str "application/json"]> corsHeaderMap;
          http.content :=
            str "{" ++ [dquote] ++ str "error" ++ [dquote] ++ str ":"
            ++ [dquote] ++ str "Failed to retrieve verse" ++ [dquote]
            ++ str "}" ++ [x0a] |},
       [LogPrintf line; RLock; PoolLookup name; RUnlock; QueryRow db;
        LogPrintf (str "Database query error for " ++ name ++ str ": "
                   ++ err)]).
Proof.
  intros Hreg Hpool Hrow N Hpath; unfold verseRoute.
  destruct (route_get pool r N (getRandomVerseHandler env)) as (msg & ->).
  exists msg; unfold getRandomVerseHandler.
  rewrite Hpath, (verse_path_parts name)
    by (apply translations_segment; eauto).
  cbn [length Nat.eqb negb nth]; rewrite Hreg.
  unfold bind, emit, getPool, ret; cbn [dbPool opened trace].
  rewrite Hpool, Hrow, respondWithError_finish by reflexivity; reflexivity.
Qed.

Lemma verse_query_fails_witness :
  let r := {| http.Method := str "GET";
              http.URLPath := str "/get-random-verse/RST";
              http.Header := ∅; http.RemoteAddr := str "10.0.0.1:4000" |} in
  let pool : gmap gostring DB := {[ str "RST" := 1 ]} in
  exists line,
    snd (serve (verseRoute envPortInUse) pool r)
    = [LogPrintf line; RLock; PoolLookup (str "RST"); RUnlock; QueryRow 1;
       LogPrintf (str "Database query error for RST: "
                  ++ str "sql: no rows in result set")]
    /\ http.status (fst (serve (verseRoute envPortInUse) pool r)) = 500%Z.
Proof.
  intros r pool.
  destruct (verse_query_fails envPortInUse pool r (str "RST")
              (str "assets/RST+.Sqlite3") 1
              (str "sql: no rows in result set") eq_refl eq_refl eq_refl
              ltac:(discriminate) eq_refl) as (line & E).
  exists line; rewrite E; split; reflexivity.
Defined.

(** ** What a request does to the state *)

Lemma getRandomVerseHandler_effects env w r s :
  let s' := snd (getRandomVerseHandler env w r s) in
  dbPool s' = dbPool s /\ opened s' = opened s
  /\ exists t, trace s' = trace s ++ t
               /\ forallb isRequestEvent t = true
               /\ locksOk false t = true
               /\ length (List.filter isQuery t) <= 1
               /\ forall db, In (QueryRow db) t ->
                    exists name, is_Some (translations !! name)
                                 /\ dbPool s !! name = Some db.
Proof.
  unfold getRandomVerseHandler.
  assert (Hnone : forall x : http.ResponseWriter,
            let s' := snd (ret x s) in
            dbPool s' = dbPool s /\ opened s' = opened s
            /\ exists t, trace s' = trace s ++ t
                 /\ forallb isRequestEvent t = true
                 /\ locksOk false t = true
                 /\ length (List.filter isQuery t) <= 1
                 /\ forall db, In (QueryRow db) t ->
                      exists name, is_Some (translations !! name)
                                   /\ dbPool s !! name = Some db).
  { intros x; cbn; repeat split; exists []; rewrite app_nil_r.
    repeat split; try easy; cbn; lia. }
  destruct (negb _); [apply Hnone|].
  destruct (translations !! nth 1 _ []) as [path|] eqn:Hreg; [|apply Hnone].
  unfold bind, emit, getPool, ret; cbn [dbPool opened trace].
  destruct (dbPool s !! _) as [db|] eqn:Hpool.
  - destruct (queryRow env db); cbn [snd dbPool opened trace];
      (split; [reflexivity|split; [reflexivity|]]);
      rewrite <- !app_assoc; cbn [app]; eexists; (split; [reflexivity|]);
      (split; [reflexivity|split; [reflexivity|split; [cbn; lia|]]]);
      intros db' Hin; cbn [In] in Hin;
      repeat (destruct Hin as [Hin|Hin]; try discriminate Hin);
      try easy; injection Hin as <-; eexists; split; eauto.
  - cbn [snd dbPool opened trace]; split; [reflexivity|split; [reflexivity|]].
    rewrite <- !app_assoc; cbn [app]; eexists; split; [reflexivity|].
    split; [reflexivity|split; [reflexivity|split; [cbn; lia|]]].
    intros db' Hin; cbn [In] in Hin.
    repeat (destruct Hin as [Hin|Hin]; try discriminate Hin); easy.
Qed.

Lemma healthHandler_effects env w r s :
  let s' := snd (healthHandler env w r s) in
  dbPool s' = dbPool s /\ opened s' = opened s
  /\ trace s' = trace s ++ [RLock; PoolRange; RUnlock].
Proof.
  unfold healthHandler, bind, emit, getPool, ret.
  cbn [snd dbPool opened trace]; rewrite <- !app_assoc; easy.
Qed.

Lemma route_effects (h : HandlerFunc) w r s :
  exists w' t0,
    snd (corsMiddleware (loggingMiddleware h) w r s)
    = (if decide (http.Method r = str "OPTIONS") then s
       else snd (h w' r {| dbPool := dbPool s; opened := opened s;
                           trace := trace s ++ t0 |}))
    /\ forallb isRequestEvent t0 = true /\ locksOk false t0 = true
    /\ List.filter isQuery t0 = [].
Proof.
  unfold corsMiddleware, loggingMiddleware.
  destruct (decide _); [exists w, []; easy|].
  unfold bind, emit; cbn [dbPool opened trace].
  eexists _, [_]; split; [reflexivity|easy].
Qed.

Lemma locksOk_app t1 : forall h t2,
  locksOk h t1 = true -> locksOk false t2 = true ->
  locksOk h (t1 ++ t2) = true.
Proof.
  induction t1 as [|e t1 IH]; intros h t2 H1 H2.
  - destruct h; [discriminate H1|exact H2].
  - destruct e; cbn [locksOk app] in *; auto;
      apply andb_true_iff in H1 as [-> H1]; cbn [andb]; auto.
Qed.

Lemma filter_isQuery_app t1 t2 :
  List.filter isQuery t1 = [] ->
  length (List.filter isQuery (t1 ++ t2)) = length (List.filter isQuery t2).
Proof. intros H; rewrite List.filter_app, H; reflexivity. Qed.

(** X12.  Serving a request changes nothing of the program's state but the
    log and the trace: whatever the request, the two routes leave the pool
    and the count of opened handles as they found them, and all they do is
    log, take and release the read lock, read the pool and query.  No
    handle is opened, pinged or closed by a request. *)
Theorem requests_are_read_only env w r s :
  let s1 := snd (verseRoute env w r s) in
  let s2 := snd (healthRoute env w r s) in
  (dbPool s1 = dbPool s /\ opened s1 = opened s
   /\ exists t, trace s1 = trace s ++ t /\ forallb isRequestEvent t = true)
  /\ (dbPool s2 = dbPool s /\ opened s2 = opened s
      /\ exists t, trace s2 = trace s ++ t
                   /\ forallb isRequestEvent t = true).
Proof.
  cbv zeta; unfold verseRoute, healthRoute; split.
  - destruct (route_effects (getRandomVerseHandler env) w r s)
      as (w' & t0 & -> & H0 & _).
    destruct (decide _);
      [repeat split; exists []; rewrite app_nil_r; easy|].
    destruct (getRandomVerseHandler_effects env w' r
                {| dbPool := dbPool s; opened := opened s;
                   trace := trace s ++ t0 |})
      as (-> & -> & t & -> & Ht & _).
    repeat split; exists (t0 ++ t); cbn [trace].
    rewrite app_assoc, forallb_app, H0, Ht; easy.
  - destruct (route_effects (healthHandler env) w r s)
      as (w' & t0 & -> & H0 & _).
    destruct (decide _);
      [repeat split; exists []; rewrite app_nil_r; easy|].
    destruct (healthHandler_effects env w' r
                {| dbPool := dbPool s; opened := opened s;
                   trace := trace s ++ t0 |})
      as (-> & -> & ->).
    repeat split; exists (t0 ++ [RLock; PoolRange; RUnlock]); cbn [trace].
    rewrite app_assoc, forallb_app, H0; easy.
Qed.

(** X13.  Every request keeps the discipline of [dbMutex]: along the
    trace of either route the read lock is taken only when it is not held
    and released only when it is, the pool is read only under the lock, a
    query runs only after the lock is released, and the lock is not held
    when the handler returns.  A request runs at most one query, and it
    runs it on the handle that the pool holds for a name of the
    registry. *)
Theorem requests_keep_lock_discipline env pool r :
  let verse := snd (serve (verseRoute env) pool r) in
  let health := snd (serve (healthRoute env) pool r) in
  locksOk false verse = true
  /\ locksOk false health = true
  /\ length (List.filter isQuery verse) <= 1
  /\ List.filter isQuery health = []
  /\ forall db, In (QueryRow db) verse ->
        exists name, is_Some (translations !! name)
                     /\ pool !! name = Some db.
Proof.
  cbv zeta; rewrite !serve_snd; unfold verseRoute, healthRoute.
  destruct (route_effects (getRandomVerseHandler env) http.newResponseWriter
              r {| dbPool := pool; opened := 0; trace := [] |})
    as (w1 & t1 & -> & _ & L1 & Q1).
  destruct (route_effects (healthHandler env) http.newResponseWriter
              r {| dbPool := pool; opened := 0; trace := [] |})
    as (w2 & t2 & -> & _ & L2 & Q2).
  destruct (decide _); [cbn; repeat split; try lia; easy|].
  cbn [dbPool opened trace app].
  destruct (getRandomVerseHandler_effects env w1 r
              {| dbPool := pool; opened := 0; trace := t1 |})
    as (_ & _ & t & -> & _ & Lt & Qt & Hq).
  destruct (healthHandler_effects env w2 r
              {| dbPool := pool; opened := 0; trace := t2 |})
    as (_ & _ & ->).
  cbn [dbPool trace] in *.
  split; [apply locksOk_app; easy|].
  split; [apply locksOk_app; easy|].
  split; [rewrite filter_isQuery_app; easy|].
  split; [rewrite List.filter_app, Q2; reflexivity|].
  intros db [Hin|Hin]%in_app_or; [|apply Hq; easy].
  assert (In (QueryRow db) (List.filter isQuery t1))
    by (apply filter_In; easy).
  rewrite Q1 in *; easy.
Qed.

(** ** The program from its start to its end *)

Lemma closeAll_effects l : forall s,
  closeAll l s
  = (tt, {| dbPool := dbPool s; opened := opened s;
            trace := trace s
                     ++ flat_map
                          (fun nd => [LogPrintf
                                        (str "Closing database connection for "
                                         ++ fst nd);
                                      Close (snd nd)]) l |}).
Proof.
  induction l as [|[name db] l IH]; intros s.
  - cbn [closeAll flat_map]; rewrite app_nil_r; destruct s; reflexivity.
  - cbn [closeAll flat_map]; unfold bind, emit; rewrite IH.
    cbn [dbPool opened trace fst snd]; rewrite <- !app_assoc; reflexivity.
Qed.

(** The four ways through [main], by what [initDatabases] and
    [ListenAndServe] return. *)
Lemma run_cases env :
  let s0 := {| dbPool := ∅; opened := 0;
               trace := [LogPrintf (str "Initializing databases...")] |} in
  let s1 := snd (initDatabases env s0) in
  let port := if decide (envPORT env = []) then str "8080"
              else envPORT env in
  let up :=
    [HandleFunc (str "/get-random-verse/"); HandleFunc (str "/health");
     LogPrintf (str "Starting server on port " ++ port ++ str "...");
     PoolRange;
     LogPrintf (str "Available translations: ["
                ++ json.join (str " ")
                     (map fst (rangePool env (dbPool s1)))
                ++ str "]");
     ListenAndServe (str ":" ++ port)] in
  run env
  = match fst (initDatabases env s0) with
    | Some err =>
        {| dbPool := dbPool s1; opened := opened s1;
           trace := trace s1
                    ++ [LogPrintf (str "Failed to initialize databases: "
                                   ++ err); OsExit 1] |}
    | None =>
        match listenError env with
        | Some err =>
            {| dbPool := dbPool s1; opened := opened s1;
               trace := trace s1 ++ up
                        ++ [LogPrintf (str "Server failed to start: " ++ err);
                            OsExit 1] |}
        | None =>
            {| dbPool := dbPool s1; opened := opened s1;
               trace := trace s1 ++ up ++ [PoolRange]
                        ++ flat_map
                             (fun nd =>
                                [LogPrintf
                                   (str "Closing database connection for "
                                    ++ fst nd);
                                 Close (snd nd)])
                             (rangePool env (dbPool s1)) |}
        end
    end.
Proof.
  cbv zeta; unfold run, main, bind at 1, emit at 1.
  cbn [dbPool opened trace app]; unfold bind at 1.
  destruct (initDatabases env _) as [[err|] s1]; cbn [fst snd].
  - unfold bind, emit; cbn [snd dbPool opened trace].
    rewrite <- !app_assoc; reflexivity.
  - unfold bind at 1, emit at 1; unfold bind at 1, emit at 1.
    unfold bind at 1, emit at 1; unfold bind at 1, getPool at 1.
    unfold bind at 1, emit at 1; unfold bind at 1, emit at 1.
    unfold bind at 1, emit at 1; cbn [dbPool opened trace].
    destruct (listenError env) as [err|].
    + unfold bind, emit; cbn [snd dbPool opened trace].
      rewrite <- !app_assoc; reflexivity.
    + unfold bind at 1, getPool at 1; unfold bind at 1, emit at 1.
      cbn [dbPool opened trace]; rewrite closeAll_effects.
      cbn [snd dbPool opened trace]; rewrite <- !app_assoc; reflexivity.
Qed.

(** What [initDatabases] does and to what. *)
Lemma initDatabases_loop_trace env registry todo : forall s,
  (forall name path, In (name, path) todo -> In (name, path) registry) ->
  exists t,
    trace (snd (initDatabases_loop env todo s)) = trace s ++ t
    /\ Forall (isInitEvent registry) t.
Proof.
  induction todo as [|[name path] todo IH]; intros s Hreg.
  { exists []; rewrite app_nil_r; split; [reflexivity|constructor]. }
  assert (Hrest : forall n p, In (n, p) todo -> In (n, p) registry)
    by (intros n p H; apply Hreg; right; exact H).
  assert (Hin : In (name, path) registry) by (apply Hreg; left; reflexivity).
  assert (Hstat : isInitEvent registry (OsStat path)) by (exists name; easy).
  assert (Hopen : forall o,
            isInitEvent registry
              (SqlOpen (str "file:" ++ path ++ str "?mode=ro&cache=shared") o))
    by (intros o; exists name, path; easy).
  cbn [initDatabases_loop]; unfold bind at 1, emit at 1.
  destruct (statNotExist env path).
  { unfold bind at 1, emit at 1; cbn [dbPool opened trace].
    match goal with |- context [initDatabases_loop env todo ?s'] =>
      destruct (IH s' Hrest) as (t & -> & Ht) end.
    cbn [trace]; rewrite <- !app_assoc; eexists; split; [reflexivity|].
    repeat constructor; easy. }
  unfold bind at 1, sqlOpen; cbn [dbPool opened trace].
  destruct (openError env _) as [err|].
  { cbn [ret snd trace]; rewrite <- !app_assoc; eexists; split; [reflexivity|].
    repeat constructor; easy. }
  unfold bind at 1, emit at 1; unfold bind at 1, emit at 1.
  unfold bind at 1, emit at 1; cbn [dbPool opened trace].
  destruct (pingError env _) as [err|].
  - unfold bind at 1, emit at 1; unfold bind at 1, emit at 1.
    cbn [dbPool opened trace].
    match goal with |- context [initDatabases_loop env todo ?s'] =>
      destruct (IH s' Hrest) as (t & -> & Ht) end.
    cbn [trace]; rewrite <- !app_assoc; eexists; split; [reflexivity|].
    repeat constructor; easy.
  - unfold bind at 1, poolStore; unfold bind at 1, emit at 1.
    cbn [dbPool opened trace].
    match goal with |- context [initDatabases_loop env todo ?s'] =>
      destruct (IH s' Hrest) as (t & -> & Ht) end.
    cbn [trace]; rewrite <- !app_assoc; eexists; split; [reflexivity|].
    repeat constructor; easy.
Qed.

Lemma initDatabases_state env s :
  snd (initDatabases env s)
  = snd (initDatabases_loop env (rangeTranslations env) s).
Proof.
  unfold initDatabases, bind.
  destruct (initDatabases_loop env _ s) as [[err|] s1]; [reflexivity|].
  unfold getPool; destruct (decide _); reflexivity.
Qed.

Lemma initDatabases_trace env s :
  exists t,
    trace (snd (initDatabases env s)) = trace s ++ t
    /\ Forall (isInitEvent (rangeTranslations env)) t.
Proof.
  rewrite initDatabases_state; apply initDatabases_loop_trace; auto.
Qed.

Lemma initEvent_mainEvent registry e :
  isInitEvent registry e -> isMainEvent registry e.
Proof. destruct e; cbn; easy. Qed.

(** X14.  Startup and shutdown do nothing but what this list allows.
    Every file that [main] looks for or opens is a file of the registry,
    and it is opened read-only with a shared cache; every handle gets the
    limits 25 and 5; an exit is an exit with code 1.  [main] never takes
    [dbMutex], looks up a name in the pool or runs a query. *)
Theorem main_events env :
  Forall (isMainEvent (rangeTranslations env)) (trace (run env)).
Proof.
  rewrite run_cases; cbv zeta.
  destruct (initDatabases_trace env
              {| dbPool := ∅; opened := 0;
                 trace := [LogPrintf (str "Initializing databases...")] |})
    as (t & Et & Ht).
  assert (Ht' : Forall (isMainEvent (rangeTranslations env)) t)
    by (eapply List.Forall_impl; [|exact Ht]; apply initEvent_mainEvent).
  destruct (fst (initDatabases env _)) as [err|];
    [|destruct (listenError env) as [err|]];
    cbn [trace]; rewrite Et; cbn [trace];
    repeat first [apply Forall_app; split | apply Forall_cons; split
                 | apply Forall_nil]; try easy.
  apply Forall_flat_map, Forall_forall; intros [n d] _.
  repeat constructor.
Qed.

Lemma initDatabases_loop_pooled env todo : forall s name db,
  dbPool (snd (initDatabases_loop env todo s)) !! name = Some db ->
  dbPool s !! name = Some db
  \/ exists path,
       In (name, path) todo /\ statNotExist env path = false
       /\ openError env (str "file:" ++ path ++ str "?mode=ro&cache=shared")
          = None
       /\ pingError env db = None.
Proof.
  induction todo as [|[n p] todo IH]; intros s name db; [left; easy|].
  cbn [initDatabases_loop]; unfold bind at 1, emit at 1.
  assert (Hrest : forall s',
            dbPool s' = dbPool s ->
            dbPool (snd (initDatabases_loop env todo s')) !! name = Some db ->
            dbPool s !! name = Some db
            \/ exists path,
                 In (name, path) ((n, p) :: todo)
                 /\ statNotExist env path = false
                 /\ openError env
                      (str "file:" ++ path ++ str "?mode=ro&cache=shared")
                    = None
                 /\ pingError env db = None).
  { intros s' <- [H|(path & H & H')]%IH; [left; easy|right].
    exists path; split; [right; easy|easy]. }
  destruct (statNotExist env p) eqn:Estat.
  { unfold bind at 1, emit at 1; apply Hrest; reflexivity. }
  unfold bind at 1, sqlOpen; cbn [dbPool opened trace].
  destruct (openError env _) as [err|] eqn:Eopen; [left; easy|].
  unfold bind at 1, emit at 1; unfold bind at 1, emit at 1.
  unfold bind at 1, emit at 1; cbn [dbPool opened trace].
  destruct (pingError env (opened s)) as [err|] eqn:Eping.
  - unfold bind at 1, emit at 1; unfold bind at 1, emit at 1.
    apply Hrest; reflexivity.
  - unfold bind at 1, poolStore; unfold bind at 1, emit at 1.
    cbn [dbPool opened trace].
    intros [H|(path & H & H')]%IH.
    + cbn [dbPool] in H.
      apply lookup_insert_Some in H as [[<- <-]|[_ H]]; [right|left; easy].
      exists p; split; [left; easy|easy].
    + right; exists path; split; [right; easy|easy].
Qed.

(** X15.  A name is in the pool after [initDatabases] only if the registry
    holds it with a file that was there, that [sql.Open] opened without an
    error and whose handle answered the ping. *)
Theorem pooled_is_healthy env name db :
  dbPool (snd (initDatabases env start)) !! name = Some db ->
  exists path,
    In (name, path) (rangeTranslations env)
    /\ statNotExist env path = false
    /\ openError env (str "file:" ++ path ++ str "?mode=ro&cache=shared")
       = None
    /\ pingError env db = None.
Proof.
  rewrite initDatabases_state.
  intros [H|H]%initDatabases_loop_pooled; [|exact H].
  cbn in H; rewrite lookup_empty in H; discriminate H.
Qed.

Lemma pooled_is_healthy_witness :
  exists path,
    In (str "KJV", path) (rangeTranslations envOpenFails)
    /\ statNotExist envOpenFails path = false
    /\ openError envOpenFails
         (str "file:" ++ path ++ str "?mode=ro&cache=shared") = None
    /\ pingError envOpenFails 0 = None.
Proof.
  apply (pooled_is_healthy envOpenFails (str "KJV") 0).
  vm_compute; reflexivity.
Defined.

Lemma initDatabases_loop_missing env todo : forall s,
  (forall name path, In (name, path) todo -> statNotExist env path = true) ->
  initDatabases_loop env todo s
  = (None,
     {| dbPool := dbPool s; opened := opened s;
        trace := trace s
                 ++ flat_map
                      (fun np =>
                         [OsStat (snd np);
                          LogPrintf
                            (str "Warning: Database file not found for "
                             ++ fst np ++ str ": " ++ snd np)]) todo |}).
Proof.
  induction todo as [|[name path] todo IH]; intros s H.
  - cbn [initDatabases_loop flat_map]; rewrite app_nil_r.
    destruct s; reflexivity.
  - cbn [initDatabases_loop flat_map]; unfold bind at 1, emit at 1.
    rewrite (H name path) by (left; reflexivity).
    unfold bind at 1, emit at 1; rewrite IH
      by (intros n p Hin; apply (H n p); right; exact Hin).
    cbn [dbPool opened trace fst snd]; rewrite <- !app_assoc; reflexivity.
Qed.

(** X16.  When none of the files of the registry is there, the program
    opens nothing and serves nothing: it looks for each file, logs a
    warning for each, and exits with code 1 on
    [no valid databases could be loaded], before any route is registered. *)
Theorem no_database_files env :
  (forall name path,
     In (name, path) (rangeTranslations env) -> statNotExist env path = true) ->
  run env
  = {| dbPool := ∅; opened := 0;
       trace :=
         [LogPrintf (str "Initializing databases...")]
         ++ flat_map
              (fun np =>
                 [OsStat (snd np);
                  LogPrintf (str "Warning: Database file not found for "
                             ++ fst np ++ str ": " ++ snd np)])
              (rangeTranslations env)
         ++ [LogPrintf (str "Failed to initialize databases: "
                        ++ str "no valid databases could be loaded");
             OsExit 1] |}.
Proof.
  intros H; rewrite run_cases; cbv zeta.
  unfold initDatabases, bind; rewrite (initDatabases_loop_missing env _ _ H).
  unfold getPool; cbn [dbPool opened trace].
  destruct (decide (size (∅ : gmap gostring DB) = 0)) as [_|N];
    [|destruct N; apply map_size_empty].
  cbn [ret fst snd dbPool opened trace]; rewrite <- !app_assoc; reflexivity.
Qed.

Lemma no_database_files_witness :
  let env := {| statNotExist := fun _ => true; openError := fun _ => None;
                pingError := fun _ => None;
                queryRow := fun _ => inr (str "no rows");
                rangeTranslations :=
                  [ (str "RST", str "assets/RST+.Sqlite3");
                    (str "KJV", str "assets/KJV+.Sqlite3") ];
                rangePool := map_to_list; envPORT := str "9000";
                listenError := None |} in
  trace (run env)
  = [LogPrintf (str "Initializing databases...");
     OsStat (str "assets/RST+.Sqlite3");
     LogPrintf (str "Warning: Database file not found for RST: "
                ++ str "assets/RST+.Sqlite3");
     OsStat (str "assets/KJV+.Sqlite3");
     LogPrintf (str "Warning: Database file not found for KJV: "
                ++ str "assets/KJV+.Sqlite3");
     LogPrintf (str "Failed to initialize databases: "
                ++ str "no valid databases could be loaded");
     OsExit 1].
Proof.
  intros env.
  exact (f_equal trace (no_database_files env (fun _ _ _ => eq_refl))).
Defined.

Lemma initDatabases_nonempty env s :
  fst (initDatabases env s) = None -> dbPool (snd (initDatabases env s)) <> ∅.
Proof.
  unfold initDatabases, bind.
  destruct (initDatabases_loop env _ s) as [[err|] s1]; [easy|].
  unfold getPool; destruct (decide _) as [|N]; [easy|].
  intros _ E; apply N; cbn [snd ret] in E; rewrite E; apply map_size_empty.
Qed.

(** X17.  The server listens only with a pool that is not empty: if
    [ListenAndServe] is called at all, then [initDatabases] has pooled at
    least one handle, and the address is a colon and the value of [PORT],
    or [:8080] when [PORT] is not set or empty. *)
Theorem listens_only_with_a_pool env addr :
  In (ListenAndServe addr) (trace (run env)) ->
  dbPool (run env) <> ∅
  /\ addr = str ":" ++ (if decide (envPORT env = []) then str "8080"
                        else envPORT env).
Proof.
  rewrite run_cases; cbv zeta.
  set (s0 := {| dbPool := ∅; opened := 0;
                trace := [LogPrintf (str "Initializing databases...")] |}).
  destruct (initDatabases_trace env s0) as (t & Et & Ht).
  pose proof (initDatabases_nonempty env s0) as Hne.
  assert (Hinit : ~ In (ListenAndServe addr) (trace s0 ++ t)).
  { intros [[H|[]]|H]%in_app_or; [discriminate H|].
    rewrite List.Forall_forall in Ht; apply (Ht _ H). }
  destruct (fst (initDatabases env s0)) as [err|];
    [|destruct (listenError env) as [err|]]; cbn [trace dbPool]; rewrite Et;
    intros H; apply in_app_or in H as [H|H]; try (destruct (Hinit H)).
  - cbn [In] in H; intuition discriminate.
  - split; [auto|]; cbn [In app] in H.
    repeat (destruct H as [H|H]; try discriminate H); [|easy].
    injection H as <-; reflexivity.
  - split; [auto|]; apply in_app_or in H as [H|H].
    + cbn [In] in H.
      repeat (destruct H as [H|H]; try discriminate H); [|easy].
      injection H as <-; reflexivity.
    + apply in_app_or in H as [[H|[]]|H]; [discriminate H|].
      apply in_flat_map in H as ([n d] & _ & H); cbn [In] in H.
      intuition discriminate.
Qed.

Lemma listens_only_with_a_pool_witness :
  dbPool (run envPortInUse) <> ∅
  /\ str ":8080"
     = str ":" ++ (if decide (envPORT envPortInUse = []) then str "8080"
                   else envPORT envPortInUse).
Proof.
  apply (listens_only_with_a_pool envPortInUse (str ":8080")).
  vm_compute; tauto.
Defined.

(** ** The handles at the end of the program *)

Lemma opens_app db t1 t2 : opens db (t1 ++ t2) = opens db t1 + opens db t2.
Proof. unfold opens; rewrite List.filter_app, length_app; reflexivity. Qed.

Lemma closes_app db t1 t2 :
  closes db (t1 ++ t2) = closes db t1 + closes db t2.
Proof. unfold closes; rewrite List.filter_app, length_app; reflexivity. Qed.

(** Events that neither open nor close a handle keep the handles in
    order. *)
Lemma handlesOk_quiet s t :
  (forall db, opens db t = 0 /\ closes db t = 0) ->
  handlesOk s ->
  handlesOk {| dbPool := dbPool s; opened := opened s;
               trace := trace s ++ t |}.
Proof.
  intros Ht (H1 & H2 & H3); unfold handlesOk, pooled.
  cbn [dbPool opened trace]; split; [|split]; intros db;
    destruct (Ht db) as [Eo Ec];
    rewrite ?opens_app, ?closes_app, ?Eo, ?Ec, ?Nat.add_0_r;
    first [apply H1 | apply H2 | apply H3].
Qed.

Lemma handlesOk_first_log msg :
  handlesOk {| dbPool := ∅; opened := 0; trace := [LogPrintf msg] |}.
Proof.
  unfold handlesOk, pooled; cbn; split; [easy|split]; [|easy].
  intros db [n H]; rewrite lookup_empty in H; discriminate H.
Qed.






Lemma pool_count_none (pool : gmap gostring DB) db :
  (forall n, pool !! n <> Some db) ->
  length (List.filter (fun nd => db =? snd nd) (map_to_list pool)) = 0.
Proof.
  intros Hno; destruct (List.filter _ _) as [|[n d] l] eqn:E; [reflexivity|].
  assert (Hin : In (n, d) (List.filter (fun nd => db =? snd nd)
                             (map_to_list pool)))
    by (rewrite E; left; reflexivity).
  apply filter_In in Hin as [Hin Hd]; cbn [snd] in Hd.
  apply Nat.eqb_eq in Hd as <-.
  apply list_elem_of_In, elem_of_map_to_list in Hin; destruct (Hno n Hin).
Qed.


Lemma exit_in_trace env :
  let s0 := {| dbPool := ∅; opened := 0;
               trace := [LogPrintf (str "Initializing databases...")] |} in
  In (OsExit 1) (trace (run env))
  <-> (fst (initDatabases env s0) <> None \/ listenError env <> None).
Proof.
  cbv zeta; rewrite run_cases; cbv zeta.
  set (s0 := {| dbPool := ∅; opened := 0;
                trace := [LogPrintf (str "Initializing databases...")] |}).
  destruct (initDatabases_trace env s0) as (t & Et & Ht).
  assert (Hinit : ~ In (OsExit 1) (trace s0 ++ t)).
  { intros [[H|[]]|H]%in_app_or; [discriminate H|].
    rewrite List.Forall_forall in Ht; apply (Ht _ H). }
  destruct (fst (initDatabases env s0)) as [err|];
    [|destruct (listenError env) as [err|]]; cbn [trace]; rewrite Et.
  - split; [left; easy|intros _].
    apply in_or_app; right; right; left; reflexivity.
  - split; [right; easy|intros _].
    apply in_or_app; right; apply in_or_app; right; right; left; reflexivity.
  - split; [|intros [H|H]; easy].
    intros [H|H]%in_app_or; [destruct (Hinit H)|].
    apply in_app_or in H as [H|H];
      [cbn [In] in H; intuition discriminate|].
    apply in_app_or in H as [[H|[]]|H]; [discriminate H|].
    apply in_flat_map in H as ([n d] & _ & H); cbn [In] in H.
    intuition discriminate.
Qed.


Lemma last_two {A} (l : list A) a b : last (l ++ [a; b]) = Some b.
Proof.
  change [a; b] with ([a] ++ [b]); rewrite app_assoc; apply last_snoc.
Qed.

(** X18.  Whenever the program exits through [log.Fatalf], be it that
    [initDatabases] failed or that the server could not listen, the exit is
    the last thing it does and the deferred loop has not run: every handle
    ever made was opened once, a handle of the pool is still open, and only
    a handle whose ping failed has been closed, once. *)
Theorem fatal_exit_leaves_pool_open env :
  NoDup (map fst (rangeTranslations env)) ->
  In (OsExit 1) (trace (run env)) ->
  last (trace (run env)) = Some (OsExit 1) /\ handlesOk (run env).
Proof.
  intros Hnd Hexit; apply exit_in_trace in Hexit; revert Hexit.
  rewrite run_cases; cbv zeta.
  set (s0 := {| dbPool := ∅; opened := 0;
                trace := [LogPrintf (str "Initializing databases...")] |}).
  pose proof (initDatabases_handlesOk env s0 Hnd eq_refl
                (handlesOk_first_log _)) as Hok.
  destruct (fst (initDatabases env s0)) as [err|];
    [|destruct (listenError env) as [err|]]; intros Hexit.
  - split; [|apply handlesOk_quiet; [intros db; split; reflexivity|easy]].
    cbn [trace]; apply last_two.
  - split; [|apply handlesOk_quiet; [intros db; split; reflexivity|easy]].
    cbn [trace]; rewrite app_assoc; apply last_two.
  - destruct Hexit as [H|H]; destruct H; reflexivity.
Qed.

Lemma fatal_exit_leaves_pool_open_witness :
  last (trace (run envOpenFails)) = Some (OsExit 1)
  /\ handlesOk (run envOpenFails).
Proof.
  apply (fatal_exit_leaves_pool_open envOpenFails).
  - apply NoDup_ListNoDup; repeat constructor; simpl; intuition discriminate.
  - vm_compute; tauto.
Defined.



(** ** The lines of a response *)

Section lines.
Import json.

Local Abbreviation visible := (fun c => negb (isControl c)).

Lemma hex_visible n : isControl (hex n) = false.
Proof.
  unfold hex; do 17 (destruct n as [|n]; [reflexivity|]).
  destruct n; reflexivity.
Qed.

Lemma escape_visible b : forallb visible (escape b) = true.
Proof.
  unfold escape.
  destruct (Byte.eqb b x5c || Byte.eqb b x22) eqn:E.
  - apply orb_true_iff in E as [E|E]; apply byte_dec_bl in E; subst;
      reflexivity.
  - repeat match goal with |- context [if ?c then _ else _] =>
             destruct c; [reflexivity|] end.
    rewrite forallb_app; cbn [forallb]; rewrite !hex_visible; reflexivity.
Qed.

Lemma hi_visible b : strings.hi b = true -> isControl b = false.
Proof.
  unfold strings.hi, isControl; intros H%Nat.leb_le; apply Nat.ltb_ge; lia.
Qed.

Lemma safe_visible e b : safe e b = true -> isControl b = false.
Proof.
  unfold safe, isControl.
  intros [[[[H _]%andb_true_iff _]%andb_true_iff _]%andb_true_iff _]%andb_true_iff.
  apply Nat.leb_le in H; apply Nat.ltb_ge; lia.
Qed.

Lemma appendFrom_visible e s : forall keep drop,
  forallb strings.hi (firstn keep s) = true ->
  forallb visible (appendFrom e keep drop s) = true.
Proof.
  induction s as [|b s IH]; intros keep drop Hkeep; [easy|].
  cbn [appendFrom]; destruct keep as [|k].
  - destruct drop as [|d]; [|apply IH; easy].
    destruct (strings.hi b) eqn:Hb.
    + destruct (runeWidth (b :: s)) as [|n] eqn:W.
      * rewrite forallb_app, IH by easy; easy.
      * destruct (lineSep (b :: s)) as [h|] eqn:Eh.
        -- assert (isControl h = false) as Hh.
           { unfold lineSep in Eh; destruct s as [|b1 [|b2 s2]]; try easy.
             destruct (_ && _); [|easy]; injection Eh as <-.
             apply hex_visible. }
           rewrite forallb_app; cbn [forallb]; rewrite Hh, IH by easy; easy.
        -- cbn [forallb]; rewrite (hi_visible _ Hb), IH; [easy|].
           eapply runeWidth_hi; eassumption.
    + destruct (safe e b) eqn:Sb.
      * cbn [forallb]; rewrite IH, (safe_visible _ _ Sb) by easy; easy.
      * rewrite forallb_app, escape_visible, IH by easy; easy.
  - cbn [firstn forallb] in Hkeep.
    apply andb_true_iff in Hkeep as [Hb Hk].
    cbn [forallb]; rewrite (hi_visible _ Hb), IH by easy; easy.
Qed.

Lemma appendString_visible e s : forallb visible (appendString e s) = true.
Proof.
  unfold appendString; rewrite !forallb_app, appendFrom_visible; easy.
Qed.

Lemma uint_visible d :
  forallb visible (str (NilEmpty.string_of_uint d)) = true.
Proof. induction d; cbn; auto. Qed.

Lemma decimal_visible n : forallb visible (decimal n) = true.
Proof.
  unfold decimal, NilZero.string_of_int.
  assert (H : forall d, forallb visible (str (NilZero.string_of_uint d)) = true).
  { intros d; unfold NilZero.string_of_uint.
    destruct d; try apply uint_visible; reflexivity. }
  destruct (Z.to_int n) as [d|d]; [apply H|].
  change (forallb visible (x2d :: str (NilZero.string_of_uint d)) = true).
  cbn [forallb]; rewrite H; reflexivity.
Qed.

Lemma marshal_visible e : forall v, forallb visible (marshal e v) = true.
Proof.
  fix IH 1; intros [s|n|l|fields]; cbn [marshal].
  - apply appendString_visible.
  - apply decimal_visible.
  - rewrite !forallb_app; cbn [forallb str list_byte_of_string].
    rewrite join_forallb; [easy|easy|].
    induction l as [|v l IHl]; constructor; [apply IH|exact IHl].
  - rewrite !forallb_app; cbn [forallb str list_byte_of_string].
    rewrite join_forallb; [easy|easy|].
    induction fields as [|[k v] fields IHl]; constructor; [|exact IHl].
    cbn [fst snd]; rewrite !forallb_app, appendString_visible, IH; easy.
Qed.

End lines.

Lemma getRandomVerseHandler_content env w r s :
  http.wrote w = None ->
  exists e v,
    http.content (http.finish (fst (getRandomVerseHandler env w r s)))
    = http.body w ++ json.encode e v.
Proof.
  intros H; unfold getRandomVerseHandler.
  destruct (negb _);
    [unfold ret; cbn [fst]; rewrite respondWithError_finish by easy;
     eexists _, _; reflexivity|].
  destruct (translations !! _);
    [|unfold ret; cbn [fst]; rewrite respondWithError_finish by easy;
      eexists _, _; reflexivity].
  unfold bind, emit, getPool; cbn [dbPool opened trace].
  destruct (dbPool s !! _) as [db|];
    [|unfold ret; cbn [fst]; rewrite respondWithError_finish by easy;
      eexists _, _; reflexivity].
  destruct (queryRow env db);
    unfold ret; cbn [fst];
    [rewrite write_finish by easy|rewrite respondWithError_finish by easy];
    eexists _, _; reflexivity.
Qed.

(** X20.  The body of every response is one line.  A preflight has an
    empty body; every other response of the two routes is the encoding of
    one JSON value followed by a newline, and that encoding holds no
    control byte: a newline, a tab or any other byte below [0x20] of a verse
    text, of a book title or of a requested name goes out escaped. *)
Theorem response_body_is_one_line env pool r :
  let verse := http.content (fst (serve (verseRoute env) pool r)) in
  let health := http.content (fst (serve (healthRoute env) pool r)) in
  if decide (http.Method r = str "OPTIONS") then verse = [] /\ health = []
  else (exists line,
          verse = line ++ [x0a]
          /\ forallb (fun c => negb (isControl c)) line = true)
       /\ (exists line,
             health = line ++ [x0a]
             /\ forallb (fun c => negb (isControl c)) line = true).
Proof.
  cbv zeta; unfold verseRoute, healthRoute.
  destruct (decide (http.Method r = str "OPTIONS")) as [E|N].
  - rewrite !cors_options by easy; split; reflexivity.
  - destruct (route_get_fst pool r (getRandomVerseHandler env) N)
      as (msg & ->).
    destruct (route_get_fst pool r (healthHandler env) N) as (msg' & ->).
    rewrite healthHandler_finish by easy.
    match goal with |- context [getRandomVerseHandler env ?w r ?s] =>
      destruct (getRandomVerseHandler_content env w r s eq_refl)
        as (e & v & ->) end.
    split; eexists; (split; [reflexivity|apply marshal_visible]).
Qed.
